(** * gpuvis_utils: log buffer, component codecs and string replacement

    A shallow embedding of the parts of [src/gpuvis_utils.cpp] that the
    specification speaks about:

    - the cross-thread log buffer ([logf_init], [logf], [logf_update],
      [logf_get], [logf_clear]),
    - the component index and component string codecs ([comp_val_to_abc],
      [comp_abc_to_val], [comp_str_parse], [comp_str_create_abc], with
      [string_format] / [string_formatv] underneath),
    - [string_replace_str], [string_replace_char], [string_explode],
      [string_implode], the trimming functions and [gen_random_str],
    - [comp_str_create_val],
    - the colour table ([col_init], [col_shutdown], [col_get], [col_set],
      [col_get_name]),
    - [imgui_multicolored_text] and the tooltip ([imgui_set_tooltip],
      [imgui_add_tooltip], [imgui_render_tooltip]).

    Every C++ function is a Rocq function of the same name.  Global
    variables are fields of an explicit state record, [uint32_t] values are
    [Z] with the wrap-around written out, [std::string] and C strings are
    [list ascii], loops whose termination is not structural carry fuel. *)

From Stdlib Require Import ZArith String Ascii Bool Arith Lia List.
From Stdlib Require Import Permutation.
Import ListNotations.

Local Open Scope Z_scope.

(* ================================================================== *)
(** * The log buffer *)
(* ================================================================== *)

Module Log.

(** A log entry is the [char *] that [vasprintf] allocated; the model keeps
    the text it points to. *)
Definition entry := string.

(** [SDL_threadID] is an [unsigned long]. *)
Definition SDL_threadID := Z.

(** An SDL mutex is recursive: the model keeps the number of holds. *)
Definition SDL_mutex := nat.

(** What an operation does besides changing the two vectors: successful
    lock acquisitions and releases, pushes, [clear()] calls and [free]. *)
Inductive event : Type :=
| EvLock
| EvUnlock
| EvPushLog (e : entry)
| EvPushThreadLog (e : entry)
| EvClearThreadLog
| EvFree (e : entry)
| EvClearLog.

(** The file's static variables, and the events so far (oldest first). *)
Record state : Type := mkState {
  g_main_tid : SDL_threadID;
  g_log : list entry;
  g_thread_log : list entry;
  g_mutex : option SDL_mutex;
  trace : list event
}.

(** [static SDL_threadID g_main_tid = -1;] on an LP64 target, empty vectors,
    [g_mutex = nullptr]. *)
Definition initial_state : state :=
  mkState (2 ^ 64 - 1) [] [] None [].

Definition emit (ev : event) (s : state) : state :=
  mkState (g_main_tid s) (g_log s) (g_thread_log s) (g_mutex s)
          (trace s ++ [ev]).

(** [SDL_LockMutex( g_mutex )]: a null mutex is an error and nothing is
    acquired. *)
Definition SDL_LockMutex (s : state) : state :=
  match g_mutex s with
  | Some n =>
      mkState (g_main_tid s) (g_log s) (g_thread_log s) (Some (S n))
              (trace s ++ [EvLock])
  | None => s
  end.

(** [SDL_UnlockMutex( g_mutex )]. *)
Definition SDL_UnlockMutex (s : state) : state :=
  match g_mutex s with
  | Some n =>
      mkState (g_main_tid s) (g_log s) (g_thread_log s) (Some (pred n))
              (trace s ++ [EvUnlock])
  | None => s
  end.

(** [g_log.push_back( str )] *)
Definition g_log_push_back (str : entry) (s : state) : state :=
  mkState (g_main_tid s) (g_log s ++ [str]) (g_thread_log s) (g_mutex s)
          (trace s ++ [EvPushLog str]).

(** [g_thread_log.push_back( str )] *)
Definition g_thread_log_push_back (str : entry) (s : state) : state :=
  mkState (g_main_tid s) (g_log s) (g_thread_log s ++ [str]) (g_mutex s)
          (trace s ++ [EvPushThreadLog str]).

(** [g_thread_log.clear()] *)
Definition g_thread_log_clear (s : state) : state :=
  mkState (g_main_tid s) (g_log s) [] (g_mutex s)
          (trace s ++ [EvClearThreadLog]).

(** [g_log.clear()] *)
Definition g_log_clear (s : state) : state :=
  mkState (g_main_tid s) [] (g_thread_log s) (g_mutex s)
          (trace s ++ [EvClearLog]).

(** [free( str )] *)
Definition free (str : entry) (s : state) : state := emit (EvFree str) s.

(** A range-based [for] over a vector that the body does not resize. *)
Definition for_each (body : entry -> state -> state) (v : list entry)
  (s : state) : state :=
  fold_left (fun acc str => body str acc) v s.

(** [logf_init]: [tid] is what [SDL_ThreadID()] returns in the caller,
    [SDL_CreateMutex()] returns a mutex nobody holds. *)
Definition logf_init (tid : SDL_threadID) (s : state) : state :=
  mkState tid (g_log s) (g_thread_log s) (Some O) (trace s).

(** [logf_shutdown] *)
Definition logf_shutdown (s : state) : state :=
  mkState (g_main_tid s) (g_log s) (g_thread_log s) None (trace s).

(** [logf_get]: a const reference to [g_log]. *)
Definition logf_get (s : state) : list entry := g_log s.

(** [logf]: [tid] is what [SDL_ThreadID()] returns in the caller and [buf]
    is the pointer [vasprintf] left in [buf] ([None] for [NULL]). *)
Definition logf (tid : SDL_threadID) (buf : option entry) (s : state)
  : state :=
  match buf with
  | Some str =>
      if tid =? g_main_tid s then
        g_log_push_back str s
      else
        SDL_UnlockMutex (g_thread_log_push_back str (SDL_LockMutex s))
  | None => s
  end.

(** [logf_update] *)
Definition logf_update (s : state) : state :=
  if negb (Nat.eqb (List.length (g_thread_log s)) 0) then
    let s1 := SDL_LockMutex s in
    let s2 := for_each g_log_push_back (g_thread_log s1) s1 in
    let s3 := g_thread_log_clear s2 in
    SDL_UnlockMutex s3
  else s.

(** [logf_clear] *)
Definition logf_clear (s : state) : state :=
  let s1 := logf_update s in
  let s2 := for_each free (g_log s1) s1 in
  g_log_clear s2.

(** ** Sequences of calls

    Every call is taken as one atomic step: the main thread's calls are
    sequential, and the critical sections of a non-main [logf] and of
    [logf_update] exclude each other. *)
Inductive call : Type :=
| Append (tid : SDL_threadID) (buf : option entry)
| Drain.

Definition exec (c : call) (s : state) : state :=
  match c with
  | Append tid buf => logf tid buf s
  | Drain => logf_update s
  end.

Definition run (cs : list call) (s : state) : state :=
  fold_left (fun acc c => exec c acc) cs s.

(** ** What the specification says Read shows

    The call sequence is cut at its Drain calls.  Each piece that ends in
    a Drain contributes the main thread's entries of the piece, in call
    order, and then the batch staged during the piece, in call order; the
    calls after the last Drain contribute the main thread's entries only. *)

(** Entries of the successful appends of the main thread. *)
Fixpoint main_appends (main : SDL_threadID) (cs : list call) : list entry :=
  match cs with
  | [] => []
  | Append tid (Some e) :: cs' =>
      if tid =? main then e :: main_appends main cs'
      else main_appends main cs'
  | _ :: cs' => main_appends main cs'
  end.

(** Entries of the successful appends of the other threads. *)
Fixpoint staged_appends (main : SDL_threadID) (cs : list call)
  : list entry :=
  match cs with
  | [] => []
  | Append tid (Some e) :: cs' =>
      if tid =? main then staged_appends main cs'
      else e :: staged_appends main cs'
  | _ :: cs' => staged_appends main cs'
  end.

(** The pieces that end in a Drain (the Drain itself removed), and the
    calls after the last Drain. *)
Fixpoint split_drains (cs : list call) : list (list call) * list call :=
  match cs with
  | [] => ([], [])
  | Drain :: cs' =>
      let (bs, rest) := split_drains cs' in ([] :: bs, rest)
  | c :: cs' =>
      match split_drains cs' with
      | ([], rest) => ([], c :: rest)
      | (b :: bs, rest) => ((c :: b) :: bs, rest)
      end
  end.

Definition batch_contribution (main : SDL_threadID) (b : list call)
  : list entry :=
  main_appends main b ++ staged_appends main b.

Definition spec_interleaved_read (main : SDL_threadID) (cs : list call)
  : list entry :=
  let (bs, rest) := split_drains cs in
  concat (map (batch_contribution main) bs) ++ main_appends main rest.

(** A sequence of [logf] calls: the calling thread and what [vasprintf]
    produced, per call. *)
Definition append_calls (l : list (SDL_threadID * option entry))
  : list call :=
  map (fun ab => Append (fst ab) (snd ab)) l.

(** The entries of the calls whose formatting succeeded, in call order. *)
Definition formatted (l : list (SDL_threadID * option entry))
  : list entry :=
  flat_map (fun ab => match snd ab with Some e => [e] | None => [] end) l.

End Log.

(* ================================================================== *)
(** * The log buffer, one statement at a time *)
(* ================================================================== *)

(** The same functions with the threads interleaved between statements.
    The main thread runs [logf], [logf_update] and [logf_get]; any number
    of other threads run [logf].  A step is one statement of one thread;
    [SDL_LockMutex] can only be taken when nobody holds the mutex.  Reads
    and writes of the vectors are indivisible. *)
Module Threads.

Import Log.

(** The statement a thread other than the main one is about to run. *)
Inductive worker_pc : Type :=
| WIdle                       (* not inside [logf] *)
| WFormatted (buf : entry)    (* [SDL_LockMutex( g_mutex )] *)
| WLocked (buf : entry)       (* [g_thread_log.push_back( buf )] *)
| WPushed.                    (* [SDL_UnlockMutex( g_mutex )] *)

(** The statement the main thread is about to run. *)
Inductive main_pc : Type :=
| MIdle                       (* not inside a call *)
| MChecked                    (* [logf_update]: [SDL_LockMutex( g_mutex )] *)
| MCopying (i : nat)          (* the [for] loop, [i] entries pushed *)
| MCleared.                   (* [SDL_UnlockMutex( g_mutex )] *)

Record tstate : Type := mkT {
  t_main_tid : SDL_threadID;
  t_log : list entry;                (* g_log *)
  t_thread_log : list entry;         (* g_thread_log *)
  t_owner : option SDL_threadID;     (* who holds g_mutex *)
  t_main : main_pc;
  t_worker : SDL_threadID -> worker_pc
}.

Definition set_worker (f : SDL_threadID -> worker_pc) (w : SDL_threadID)
  (pc : worker_pc) : SDL_threadID -> worker_pc :=
  fun x => if x =? w then pc else f x.

(** [step t c t']: one statement takes [t] to [t'].  [c] names the call
    that takes effect at this statement, if one does: the push of a
    [logf], the failed formatting of a [logf], and for [logf_update] the
    [size()] test when it finds nothing or else the lock acquisition. *)
Inductive step : tstate -> option call -> tstate -> Prop :=
(* logf on the main thread *)
| main_logf_push t buf :
    t_main t = MIdle ->
    step t (Some (Append (t_main_tid t) (Some buf)))
      (mkT (t_main_tid t) (t_log t ++ [buf]) (t_thread_log t) (t_owner t)
           MIdle (t_worker t))
| main_logf_null t :
    t_main t = MIdle ->
    step t (Some (Append (t_main_tid t) None)) t
(* logf_update *)
| update_size_zero t :
    t_main t = MIdle -> t_thread_log t = [] ->
    step t (Some Drain) t
| update_size_nonzero t :
    t_main t = MIdle -> t_thread_log t <> [] ->
    step t None
      (mkT (t_main_tid t) (t_log t) (t_thread_log t) (t_owner t)
           MChecked (t_worker t))
| update_lock t :
    t_main t = MChecked -> t_owner t = None ->
    step t (Some Drain)
      (mkT (t_main_tid t) (t_log t) (t_thread_log t)
           (Some (t_main_tid t)) (MCopying O) (t_worker t))
| update_push t i str :
    t_main t = MCopying i -> nth_error (t_thread_log t) i = Some str ->
    step t None
      (mkT (t_main_tid t) (t_log t ++ [str]) (t_thread_log t) (t_owner t)
           (MCopying (S i)) (t_worker t))
| update_clear t i :
    t_main t = MCopying i -> nth_error (t_thread_log t) i = None ->
    step t None
      (mkT (t_main_tid t) (t_log t) [] (t_owner t) MCleared (t_worker t))
| update_unlock t :
    t_main t = MCleared ->
    step t None
      (mkT (t_main_tid t) (t_log t) (t_thread_log t) None MIdle
           (t_worker t))
(* logf on another thread *)
| worker_logf_null t w :
    w <> t_main_tid t -> t_worker t w = WIdle ->
    step t (Some (Append w None)) t
| worker_logf_formatted t w buf :
    w <> t_main_tid t -> t_worker t w = WIdle ->
    step t None
      (mkT (t_main_tid t) (t_log t) (t_thread_log t) (t_owner t)
           (t_main t) (set_worker (t_worker t) w (WFormatted buf)))
| worker_lock t w buf :
    t_worker t w = WFormatted buf -> t_owner t = None ->
    step t None
      (mkT (t_main_tid t) (t_log t) (t_thread_log t) (Some w)
           (t_main t) (set_worker (t_worker t) w (WLocked buf)))
| worker_push t w buf :
    t_worker t w = WLocked buf ->
    step t (Some (Append w (Some buf)))
      (mkT (t_main_tid t) (t_log t) (t_thread_log t ++ [buf]) (t_owner t)
           (t_main t) (set_worker (t_worker t) w WPushed))
| worker_unlock t w :
    t_worker t w = WPushed ->
    step t None
      (mkT (t_main_tid t) (t_log t) (t_thread_log t) None
           (t_main t) (set_worker (t_worker t) w WIdle)).

(** An execution, with the calls in the order they took effect. *)
Inductive steps : tstate -> list call -> tstate -> Prop :=
| steps_refl t : steps t [] t
| steps_silent t1 t2 cs t3 :
    step t1 None t2 -> steps t2 cs t3 -> steps t1 cs t3
| steps_effect t1 x t2 cs t3 :
    step t1 (Some x) t2 -> steps t2 cs t3 -> steps t1 (x :: cs) t3.

(** After [logf_init] on thread [tid]: nobody is inside a call. *)
Definition t_init (tid : SDL_threadID) : tstate :=
  mkT tid [] [] None MIdle (fun _ => WIdle).

(** The two vectors as they stand once the call in progress on the main
    thread is over: a [logf_update] that has the lock will have moved
    every staged entry. *)
Definition settled (t : tstate) : list entry * list entry :=
  match t_main t with
  | MCopying i => (t_log t ++ skipn i (t_thread_log t), [])
  | MCleared => (t_log t, [])
  | _ => (t_log t, t_thread_log t)
  end.

Definition buffers (s : state) : list entry * list entry :=
  (g_log s, g_thread_log s).

(** Who can hold the mutex, and what that excludes. *)
Record consistent (t : tstate) : Prop := mkConsistent {
  workers_are_not_main :
    forall w, t_worker t w <> WIdle -> w <> t_main_tid t;
  locked_worker_owns :
    forall w buf, t_worker t w = WLocked buf -> t_owner t = Some w;
  pushed_worker_owns :
    forall w, t_worker t w = WPushed -> t_owner t = Some w;
  copying_main_owns :
    forall i, t_main t = MCopying i -> t_owner t = Some (t_main_tid t);
  cleared_main_owns :
    t_main t = MCleared ->
    t_owner t = Some (t_main_tid t) /\ t_thread_log t = []
}.

End Threads.

(* ================================================================== *)
(** * Strings: formatting and replacement *)
(* ================================================================== *)

Module Str.

(** A [std::string] is its sequence of characters; a C string is the
    characters before its terminating NUL. *)
Definition std_string := list ascii.

Definition lit (s : string) : std_string := list_ascii_of_string s.

Definition NUL : ascii := Ascii.zero.

(** ** [std::string] members used by the source *)

(** [s.resize( n )]: truncates, or pads with NUL characters. *)
Definition resize (s : std_string) (n : nat) : std_string :=
  firstn n s ++ repeat NUL (n - List.length s).

(** Is [p] a prefix of [s]? *)
Fixpoint prefixb (p s : std_string) : bool :=
  match p, s with
  | [], _ => true
  | _ :: _, [] => false
  | x :: p', y :: s' => Ascii.eqb x y && prefixb p' s'
  end.

(** Offset of the first occurrence of [search] in [s]. *)
Fixpoint first_occurrence (search s : std_string) : option nat :=
  if prefixb search s then Some O
  else match s with
       | [] => None
       | _ :: s' => option_map S (first_occurrence search s')
       end.

(** [s.find( search, pos )]: the lowest position at or after [pos] where
    [search] occurs, [None] for [npos]. *)
Definition string_find (s search : std_string) (pos : nat) : option nat :=
  if (pos <=? List.length s)%nat then
    option_map (Nat.add pos) (first_occurrence search (skipn pos s))
  else None.

(** [s.erase( pos, n )] for [pos <= s.size()]. *)
Definition string_erase (s : std_string) (pos n : nat) : std_string :=
  firstn pos s ++ skipn (pos + n) s.

(** [s.insert( pos, str )] for [pos <= s.size()]. *)
Definition string_insert (s : std_string) (pos : nat) (str : std_string)
  : std_string :=
  firstn pos s ++ str ++ skipn pos s.

(** ** [string_replace_str]

    [search] and [replace] are [const std::string &] parameters: the
    function reads them through the reference at every use, and a caller
    may bind either of them to the subject [s] itself, which the loop
    changes under them. *)
Inductive str_ref : Type :=
| Own (v : std_string)   (* an object other than [s], holding [v] *)
| Subject.               (* the object [s] *)

(** What a reference reads while the subject holds [s]. *)
Definition deref (r : str_ref) (s : std_string) : std_string :=
  match r with
  | Own v => v
  | Subject => s
  end.

(** The [for ( size_t pos = 0;; pos += replace.length() )] loop; [None]
    when the fuel runs out before the loop breaks.  [search] is read for
    [find] and for the length to erase before anything is erased,
    [replace] is read for [insert] after the erasure and for the step
    after the insertion. *)
Fixpoint string_replace_str_loop (fuel : nat) (s : std_string)
  (search replace : str_ref) (pos : nat) : option std_string :=
  match fuel with
  | O => None
  | S fuel' =>
      match string_find s (deref search s) pos with
      | None => Some s
      | Some pos' =>
          let s1 := string_erase s pos' (List.length (deref search s)) in
          let s2 := string_insert s1 pos' (deref replace s1) in
          string_replace_str_loop fuel' s2 search replace
            (pos' + List.length (deref replace s2))
      end
  end.

Definition string_replace_str (fuel : nat) (s : std_string)
  (search replace : str_ref) : option std_string :=
  string_replace_str_loop fuel s search replace O.

(** [sep] between consecutive pieces. *)
Fixpoint join (sep : std_string) (pieces : list std_string) : std_string :=
  match pieces with
  | [] => []
  | [u] => u
  | u :: rest => u ++ sep ++ join sep rest
  end.

(** [us] cuts a string at successive leftmost occurrences of [search]:
    every piece but the last is followed by an occurrence, the first one
    there is in the piece followed by [search]; the last piece contains
    none. *)
Fixpoint leftmost_pieces (search : std_string) (us : list std_string)
  : Prop :=
  match us with
  | [] => False
  | u :: rest =>
      match rest with
      | [] => first_occurrence search u = None
      | _ :: _ =>
          first_occurrence search (u ++ search) = Some (List.length u) /\
          leftmost_pieces search rest
      end
  end.

(** ** printf-style formatting

    The C library's part, for the one conversion the component strings
    use: [%u] prints an unsigned argument in decimal. *)

Definition digit_char (d : Z) : ascii := ascii_of_nat (48 + Z.to_nat d).

Fixpoint utoa_digits (fuel : nat) (n : Z) (acc : std_string) : std_string :=
  match fuel with
  | O => acc
  | S fuel' =>
      let acc' := digit_char (n mod 10) :: acc in
      if n / 10 =? 0 then acc' else utoa_digits fuel' (n / 10) acc'
  end.

(** Decimal digits of a 32-bit unsigned value (at most ten). *)
Definition utoa (n : Z) : std_string := utoa_digits 10 n [].

(** The text a format produces: [%u] consumes one argument, every other
    character is copied. *)
Fixpoint vformat (fmt : std_string) (args : list Z) : std_string :=
  match fmt with
  | [] => []
  | "%"%char :: "u"%char :: rest =>
      match args with
      | a :: args' => utoa a ++ vformat rest args'
      | [] => "%"%char :: "u"%char :: vformat rest []
      end
  | ch :: rest => ch :: vformat rest args
  end.

(** The formats and arguments for which [vformat] is the text the C
    library produces: ordinary characters and [%u] conversions without
    flags, width or precision, every [%u] with an [unsigned] argument of
    its own.  Any other use of [%] is outside it. *)
Fixpoint plain_u_format (fmt : std_string) (args : list Z) : bool :=
  match fmt with
  | [] => true
  | "%"%char :: "u"%char :: rest =>
      match args with
      | a :: args' => (0 <=? a) && (a <? 2 ^ 32) && plain_u_format rest args'
      | [] => false
      end
  | ch :: rest =>
      negb (Ascii.eqb ch "%") && negb (Ascii.eqb ch NUL) &&
      plain_u_format rest args
  end.

(** The [va_list] after a call has fetched the arguments of [fmt] from
    it. *)
Fixpoint va_rest (fmt : std_string) (args : list Z) : list Z :=
  match fmt with
  | [] => args
  | "%"%char :: "u"%char :: rest =>
      match args with
      | _ :: args' => va_rest rest args'
      | [] => []
      end
  | _ :: rest => va_rest rest args
  end.

(** [vsnprintf( buf, size, fmt, ap )]: writes at most [size - 1]
    characters and a NUL into [buf], returns the length of the whole
    text. *)
Definition vsnprintf (buf : std_string) (size : nat) (fmt : std_string)
  (args : list Z) : std_string * Z :=
  let full := vformat fmt args in
  let written := firstn (size - 1) full in
  let buf' :=
    match size with
    | O => buf
    | S _ => written ++ NUL :: skipn (S (List.length written)) buf
    end in
  (buf', Z.of_nat (List.length full)).

(** [string_formatv]: the [for ( ;; )] loop around [vsnprintf], [size]
    starting at 512.  The source hands the same [ap] to every
    [vsnprintf], without [va_copy]: where [va_list] is an array type, as
    on x86-64, a second pass finds the list where the first pass left
    it. *)
Fixpoint string_formatv_loop (fuel : nat) (str : std_string) (size : Z)
  (fmt : std_string) (args : list Z) : option std_string :=
  match fuel with
  | O => None
  | S fuel' =>
      let str1 := resize str (Z.to_nat size) in
      let (str2, n) := vsnprintf str1 (Z.to_nat size) fmt args in
      if (n >? -1) && (n <? size) then
        Some (resize str2 (Z.to_nat n))
      else
        string_formatv_loop fuel' str2
          (if n >? -1 then n + 1 else size * 2) fmt (va_rest fmt args)
  end.

Definition string_formatv (fuel : nat) (fmt : std_string) (args : list Z)
  : option std_string :=
  string_formatv_loop fuel [] 512 fmt args.

(** [string_format] *)
Definition string_format (fuel : nat) (fmt : std_string) (args : list Z)
  : option std_string :=
  string_formatv fuel fmt args.

End Str.

(* ================================================================== *)
(** * Component codecs *)
(* ================================================================== *)

Module Comp.

Import Str.

(** [uint32_t] arithmetic. *)
Definition to_uint32 (z : Z) : Z := z mod 2 ^ 32.
Definition add32 (x y : Z) : Z := to_uint32 (x + y).
Definition sub32 (x y : Z) : Z := to_uint32 (x - y).
Definition mul32 (x y : Z) : Z := to_uint32 (x * y).

(** [comp_val_to_abc]: the returned flag and the values left in [a], [b]
    and [c]. *)
Definition comp_val_to_abc (val : Z) : bool * (Z * Z * Z) :=
  let c := val mod 9 in
  let b := (val / 9) mod 4 in
  let a := add32 (val / 36) 1 in
  (a <=? 2, (a, b, c)).

(** [comp_abc_to_val] *)
Definition comp_abc_to_val (a b c : Z) : Z :=
  add32 (add32 (mul32 (sub32 a 1) 36) (mul32 b 9)) c.

(** ** C strings *)

(** [comp[ i ]]: the character, the terminating NUL at the length, and
    [None] for a read past the terminator. *)
Definition cstr_at (comp : std_string) (i : nat) : option ascii :=
  match nth_error comp i with
  | Some ch => Some ch
  | None => if (i =? List.length comp)%nat then Some NUL else None
  end.

Definition code (ch : ascii) : Z := Z.of_nat (nat_of_ascii ch).

(** [strncmp( s1, s2, n )] *)
Fixpoint strncmp (s1 s2 : std_string) (n : nat) {struct n} : Z :=
  match n with
  | O => 0
  | S n' =>
      match s1, s2 with
      | [], [] => 0
      | [], c2 :: _ => 0 - code c2
      | c1 :: _, [] => code c1
      | c1 :: r1, c2 :: r2 =>
          if Ascii.eqb c1 c2 then
            if Ascii.eqb c1 NUL then 0 else strncmp r1 r2 n'
          else code c1 - code c2
      end
  end.

(** [isdigit] *)
Definition isdigit (ch : ascii) : bool :=
  (48 <=? code ch) && (code ch <=? 57).

Notation "x <- e ;; k" :=
  (match e with Some x => k | None => None end)
  (at level 61, e at next level, right associativity, only parsing).

(** [comp_str_parse]: [a], [b], [c] are the values the output parameters
    hold before the call; the result is the returned flag with the values
    they hold after it, or [None] if the call reads past the end of
    [comp]. *)
Definition comp_str_parse (comp : std_string) (a b c : Z)
  : option (bool * (Z * Z * Z)) :=
  let reject := Some (false, (a, b, c)) in
  if negb (strncmp comp (lit "comp_") 5 =? 0) then reject else
  c5 <- cstr_at comp 5 ;;
  if negb (Ascii.eqb c5 "1" || Ascii.eqb c5 "2") then reject else
  c6 <- cstr_at comp 6 ;;
  if negb (Ascii.eqb c6 ".") then reject else
  c7 <- cstr_at comp 7 ;;
  if negb (isdigit c7) then reject else
  c8 <- cstr_at comp 8 ;;
  if negb (Ascii.eqb c8 ".") then reject else
  c9 <- cstr_at comp 9 ;;
  if negb (isdigit c9) then reject else
  let a' := to_uint32 (code c5 - code "0") in
  let b' := to_uint32 (code c7 - code "0") in
  let c' := to_uint32 (code c9 - code "0") in
  Some ((b' <=? 3) && (c' <=? 8), (a', b', c')).

(** [comp_str_create_abc] *)
Definition comp_str_create_abc (fuel : nat) (a b c : Z)
  : option std_string :=
  string_format fuel (lit "comp_%u.%u.%u") [a; b; c].

(** The text [comp_a.b.c] for one-digit [a], [b], [c]. *)
Definition comp_text (a b c : Z) : std_string :=
  lit "comp_" ++
  [digit_char a; "."%char; digit_char b; "."%char; digit_char c].

(** The strings [comp_[1-2].[0-3].[0-8]]. *)
Definition comp_form (s : std_string) : Prop :=
  exists a b c, 1 <= a <= 2 /\ 0 <= b <= 3 /\ 0 <= c <= 8 /\
    s = comp_text a b c.

End Comp.

(* ================================================================== *)
(** * Call sequences of the log buffer *)
(* ================================================================== *)

Module LogCalls.

Import Log.

(** The entries of the calls whose formatting succeeded, in call order. *)
Definition appended (cs : list call) : list entry :=
  flat_map (fun c => match c with
                     | Append _ (Some e) => [e]
                     | _ => []
                     end) cs.

End LogCalls.

(* ================================================================== *)
(** * More string helpers *)
(* ================================================================== *)

Module StrUtil.

Import Str.

(** ** [string_replace_char] *)

(** Offset of the first [ch] in [s]. *)
Fixpoint index_of (ch : ascii) (s : std_string) : option nat :=
  match s with
  | [] => None
  | x :: s' =>
      if Ascii.eqb x ch then Some O else option_map S (index_of ch s')
  end.

(** [s.find( ch, pos )] for a character: the lowest position at or after
    [pos] that holds [ch], [None] for [npos]. *)
Definition string_find_char (s : std_string) (ch : ascii) (pos : nat)
  : option nat :=
  if (pos <=? List.length s)%nat then
    option_map (Nat.add pos) (index_of ch (skipn pos s))
  else None.

(** [s[ pos ] = ch] for [pos < s.size()]. *)
Definition string_set (s : std_string) (pos : nat) (ch : ascii)
  : std_string :=
  firstn pos s ++ ch :: skipn (S pos) s.

(** The [while] loop of [string_replace_char]; the position found is
    where the next search starts.  [None] when the fuel runs out before
    the loop ends. *)
Fixpoint string_replace_char_loop (fuel : nat) (s : std_string)
  (search replace : ascii) (pos : nat) : option std_string :=
  match fuel with
  | O => None
  | S fuel' =>
      match string_find_char s search pos with
      | None => Some s
      | Some pos' =>
          string_replace_char_loop fuel' (string_set s pos' replace)
            search replace pos'
      end
  end.

Definition string_replace_char (fuel : nat) (s : std_string)
  (search replace : ascii) : option std_string :=
  string_replace_char_loop fuel s search replace O.

(** Every [search] character exchanged for [replace]. *)
Definition replace_each (search replace : ascii) (s : std_string)
  : std_string :=
  map (fun ch => if Ascii.eqb ch search then replace else ch) s.

(** ** [string_explode] *)

(** What [std::getline] extracts from the characters left in the stream:
    the characters before the first [delim], and what is left after it
    (nothing when the stream ended first). *)
Fixpoint read_until (delim : ascii) (iss : std_string)
  : std_string * std_string :=
  match iss with
  | [] => ([], [])
  | x :: iss' =>
      if Ascii.eqb x delim then ([], iss')
      else let (token, rest) := read_until delim iss' in (x :: token, rest)
  end.

(** [std::getline( iss, token, delim )] on a stream with [iss] left to
    read: [None] when the call fails, which it does exactly when nothing
    is left (no character is extracted, or end-of-file was already
    reached). *)
Definition getline (iss : std_string) (delim : ascii)
  : option (std_string * std_string) :=
  match iss with
  | [] => None
  | _ :: _ => Some (read_until delim iss)
  end.

(** The [for] loop of [string_explode]. *)
Fixpoint string_explode_loop (fuel : nat) (iss : std_string) (delim : ascii)
  (result : list std_string) : option (list std_string) :=
  match fuel with
  | O => None
  | S fuel' =>
      match getline iss delim with
      | None => Some result
      | Some (token, iss') =>
          string_explode_loop fuel' iss' delim (result ++ [token])
      end
  end.

Definition string_explode (fuel : nat) (s : std_string) (delim : ascii)
  : option (list std_string) :=
  string_explode_loop fuel s delim [].

(** ** [string_implode] *)

(** The [for] loop of [string_implode]: [rest] is what the iterator has
    still to visit, [i] its index and [n] the size of the vector, so that
    [it != elements.end() - 1] is [i <> n - 1]. *)
Fixpoint string_implode_loop (rest : list std_string) (i n : nat)
  (delimiter full : std_string) : std_string :=
  match rest with
  | [] => full
  | x :: rest' =>
      let full1 := full ++ x in
      let full2 :=
        if negb (i =? n - 1)%nat then full1 ++ delimiter else full1 in
      string_implode_loop rest' (S i) n delimiter full2
  end.

Definition string_implode (elements : list std_string)
  (delimiter : std_string) : std_string :=
  string_implode_loop elements O (List.length elements) delimiter [].

(** ** Trimming *)

Definition char_code (ch : ascii) : Z := Z.of_nat (nat_of_ascii ch).

(** [std::isspace] in the C locale: space, and the controls from
    horizontal tab to carriage return; no character above 127. *)
Definition isspace (ch : ascii) : bool :=
  (char_code ch =? 32) || ((9 <=? char_code ch) && (char_code ch <=? 13)).

(** [std::find_if( first, last, pred )] as an offset from [first]; the
    length when no element satisfies [pred]. *)
Fixpoint find_if (pred : ascii -> bool) (s : std_string) : nat :=
  match s with
  | [] => O
  | x :: s' => if pred x then O else S (find_if pred s')
  end.

(** [std::not1( std::ptr_fun< int, int >( std::isspace ) )] *)
Definition not_isspace (ch : ascii) : bool := negb (isspace ch).

(** [s.erase( first, last )] with the iterators as offsets. *)
Definition string_erase_range (s : std_string) (first last : nat)
  : std_string :=
  firstn first s ++ skipn last s.

(** [string_ltrim] *)
Definition string_ltrim (s : std_string) : std_string :=
  string_erase_range s O (find_if not_isspace s).

(** [string_rtrim]: the search runs over the reversed string, and
    [base()] of the reverse iterator at offset [j] is the iterator at
    offset [size - j]. *)
Definition string_rtrim (s : std_string) : std_string :=
  let j := find_if not_isspace (rev s) in
  string_erase_range s (List.length s - j) (List.length s).

(** [string_trim] *)
Definition string_trim (s : std_string) : std_string :=
  string_rtrim (string_ltrim s).

(** The copying variants work on their by-value parameter. *)
Definition string_ltrimmed (s : std_string) : std_string := string_ltrim s.
Definition string_rtrimmed (s : std_string) : std_string := string_rtrim s.
Definition string_trimmed (s : std_string) : std_string := string_trim s.

(** ** [gen_random_str] *)

(** [s_chars], without the terminator [sizeof] counts. *)
Definition s_chars : std_string :=
  lit " :-0123456789abcdefghijklmnopqrstuvwxyzABCDEFGHIJKLMNOPQRSTUVWXYZ".

(** The [for] loop of [gen_random_str], from index [i] for [n] more
    rounds; [rand k] is what the [k]-th call of [rand()] returns. *)
Fixpoint gen_random_str_loop (rand : nat -> Z) (n i : nat)
  (str : std_string) : std_string :=
  match n with
  | O => str
  | S n' =>
      let ch :=
        nth (Z.to_nat (rand i mod Z.of_nat (List.length s_chars)))
            s_chars NUL in
      gen_random_str_loop rand n' (S i) (string_set str i ch)
  end.

Definition gen_random_str (rand : nat -> Z) (len : nat) : std_string :=
  let str := resize [] (len + 1) in
  let str := gen_random_str_loop rand len O str in
  string_set str len NUL.

End StrUtil.

(* ================================================================== *)
(** * Component strings from an index *)
(* ================================================================== *)

Module CompIndex.

Import Str Comp.

(** [comp_str_create_val]: the string for an index, the empty string when
    [comp_val_to_abc] returns [false]. *)
Definition comp_str_create_val (fuel : nat) (val : Z)
  : option std_string :=
  match comp_val_to_abc val with
  | (true, (a, b, c)) => comp_str_create_abc fuel a b c
  | (false, _) => Some []
  end.

End CompIndex.

(* ================================================================== *)
(** * The colour table *)
(* ================================================================== *)

Module Col.

(** [ImU32] arithmetic. *)
Definition to_ImU32 (z : Z) : Z := z mod 2 ^ 32.

(** [~x] on an [ImU32]. *)
Definition lnot32 (x : Z) : Z := Z.lxor x (2 ^ 32 - 1).

(** [x << n] on an [ImU32]. *)
Definition shl32 (x n : Z) : Z := to_ImU32 (Z.shiftl x n).

(** From imgui.h. *)
Definition IM_COL32_A_SHIFT : Z := 24.
Definition IM_COL32_A_MASK : Z := 0xFF000000.

Definition UINT64_MAX : Z := 2 ^ 64 - 1.

(** An entry of [g_colordata]. *)
Record colordata : Type := mkColordata {
  name : string;
  color : Z;
  modified : bool
}.

(** The table itself comes from gpuvis_colors.inl, one entry per value of
    [colors_t] below [col_Max]; it is the state these functions work on.
    An index is the position in the table, and [None] is an access
    outside the array. *)
Definition colortable := list colordata.

Definition col_Max (g : colortable) : nat := List.length g.

(** [g_colordata[ col ] = d] *)
Fixpoint table_set (g : colortable) (col : nat) (d : colordata)
  : colortable :=
  match g, col with
  | [], _ => []
  | _ :: g', O => d :: g'
  | x :: g', S col' => x :: table_set g' col' d
  end.

(** [col_get] *)
Definition col_get (g : colortable) (col : nat) (alpha : Z) : option Z :=
  match nth_error g col with
  | None => None
  | Some d =>
      if alpha <=? 0xff then
        Some (Z.lor (Z.land (color d) (lnot32 IM_COL32_A_MASK))
                    (shl32 alpha IM_COL32_A_SHIFT))
      else Some (color d)
  end.

(** [col_set] *)
Definition col_set (g : colortable) (col : nat) (c : Z)
  : option colortable :=
  match nth_error g col with
  | None => None
  | Some d =>
      if negb (color d =? c) then
        Some (table_set g col (mkColordata (name d) c true))
      else Some g
  end.

(** [col_get_name] *)
Definition col_get_name (g : colortable) (col : nat) : option string :=
  match nth_error g col with
  | None => None
  | Some d => Some (name d)
  end.

(** ** Loading and saving

    [CIniFile] is declared in stlini.h; the two members used here are
    taken as they are declared, with the file as an explicit value. *)
Section Ini.

Variable CIniFile : Type.

(** [inifile.GetUint64( key, defval, section )] *)
Variable GetUint64 : CIniFile -> string -> Z -> string -> Z.

(** [inifile.PutUint64( key, value, section )] *)
Variable PutUint64 : CIniFile -> string -> Z -> string -> CIniFile.

Definition graph_colors : string := "$graph_colors$".

(** [col_init]: the loop visits the entries in order, reading the name
    of each and writing its colour only. *)
Definition col_init (g : colortable) (inifile : CIniFile) : colortable :=
  map (fun d =>
         let val := GetUint64 inifile (name d) UINT64_MAX graph_colors in
         if negb (val =? UINT64_MAX) then
           mkColordata (name d) (to_ImU32 val) (modified d)
         else d) g.

(** [col_shutdown]: the loop visits the entries in order and changes the
    file only. *)
Definition col_shutdown (g : colortable) (inifile : CIniFile) : CIniFile :=
  fold_left (fun f d =>
               if modified d then
                 PutUint64 f (name d) (color d) graph_colors
               else f) g inifile.

End Ini.

(** A file that keeps the values put into it, the latest first. *)
Definition memory_ini : Type := list (string * string * Z).

Definition memory_get (f : memory_ini) (key : string) (defval : Z)
  (section : string) : Z :=
  match find (fun e => String.eqb (fst (fst e)) section &&
                       String.eqb (snd (fst e)) key) f with
  | Some e => snd e
  | None => defval
  end.

Definition memory_put (f : memory_ini) (key : string) (value : Z)
  (section : string) : memory_ini :=
  (section, key, value) :: f.

End Col.

(* ================================================================== *)
(** * Coloured text and the tooltip *)
(* ================================================================== *)

Module Gui.

Import Str.

Definition LF : ascii := "010"%char.
Definition ESC : ascii := "027"%char.

Section Calls.

(** [ImVec4], and the colour [imgui_multicolored_text] makes of the four
    bytes after an escape character (each times [1.0f / 255.0f]). *)
Variable ImVec4 : Type.
Variable vec4_of_rgba : ascii -> ascii -> ascii -> ascii -> ImVec4.

(** The ImGui calls the functions make, in order. *)
Inductive imgui_call : Type :=
| PushStyleColor_Text (col : ImVec4)
| PopStyleColor (count : nat)
| SameLine
| TextUnformatted (text : std_string)
| NewLine
| PushFont
| PopFont
| BeginTooltip
| EndTooltip.

(** The [if ( start > text )] blocks: [pending] is the text between
    [text] and [start]. *)
Definition flush_text (pending : std_string) : list imgui_call :=
  match pending with
  | [] => []
  | _ :: _ => [SameLine; TextUnformatted pending]
  end.

(** The [for] loop of [imgui_multicolored_text] with the final
    [if ( start > text )]: [mem] is the memory from [start] to the end
    of the object [text] points into, [pending] the characters between
    [text] and [start].  [None] is a read past the end of [mem]. *)
Fixpoint multicolored_loop (mem pending : std_string)
  : option (list imgui_call) :=
  match mem with
  | [] => None
  | ch :: mem' =>
      if Ascii.eqb ch NUL then Some (flush_text pending)
      else if Ascii.eqb ch LF then
        match multicolored_loop mem' [] with
        | Some calls => Some (flush_text pending ++ NewLine :: calls)
        | None => None
        end
      else if Ascii.eqb ch ESC then
        match mem' with
        | r :: g :: b :: a :: mem'' =>
            match multicolored_loop mem'' [] with
            | Some calls =>
                Some (flush_text pending ++
                      PopStyleColor 1 ::
                      PushStyleColor_Text (vec4_of_rgba r g b a) :: calls)
            | None => None
            end
        | _ => None
        end
      else multicolored_loop mem' (pending ++ [ch])
  end.

(** [imgui_multicolored_text] *)
Definition imgui_multicolored_text (mem : std_string) (color0 : ImVec4)
  : option (list imgui_call) :=
  match multicolored_loop mem [] with
  | Some calls =>
      Some (PushStyleColor_Text color0 :: calls ++ [PopStyleColor 1])
  | None => None
  end.

(** [imgui_set_tooltip], [imgui_add_tooltip]: the new value of
    [g_imgui_tooltip]. *)
Definition imgui_set_tooltip (str : std_string) (g_imgui_tooltip : std_string)
  : std_string := str.

Definition imgui_add_tooltip (str : std_string) (g_imgui_tooltip : std_string)
  : std_string := g_imgui_tooltip ++ str.

(** [imgui_push_smallfont], [imgui_pop_smallfont]: [fonts] is
    [atlas->Fonts.Size]. *)
Definition imgui_push_smallfont (fonts : Z) : list imgui_call * bool :=
  if fonts >? 1 then ([PushFont], true) else ([], false).

Definition imgui_pop_smallfont (fonts : Z) : list imgui_call :=
  if fonts >? 1 then [PopFont] else [].

(** [imgui_render_tooltip]: the calls made and the new value of
    [g_imgui_tooltip]; [color0] is the default argument of
    [imgui_multicolored_text].  [c_str()] is the characters and a NUL. *)
Definition imgui_render_tooltip (fonts : Z) (color0 : ImVec4)
  (g_imgui_tooltip : std_string)
  : option (list imgui_call * std_string) :=
  match g_imgui_tooltip with
  | [] => Some ([], g_imgui_tooltip)
  | _ :: _ =>
      match imgui_multicolored_text (g_imgui_tooltip ++ [NUL]) color0 with
      | Some calls =>
          Some (fst (imgui_push_smallfont fonts) ++
                BeginTooltip :: calls ++
                EndTooltip :: imgui_pop_smallfont fonts, [])
      | None => None
      end
  end.

(** The colours pushed and not yet popped after [calls], starting with
    [depth] of them; [None] when a pop finds too few. *)
Fixpoint style_depth (depth : nat) (calls : list imgui_call) : option nat :=
  match calls with
  | [] => Some depth
  | PushStyleColor_Text _ :: calls' => style_depth (S depth) calls'
  | PopStyleColor count :: calls' =>
      if (count <=? depth)%nat then style_depth (depth - count) calls'
      else None
  | _ :: calls' => style_depth depth calls'
  end.

(** The same for the fonts. *)
Fixpoint font_depth (depth : nat) (calls : list imgui_call) : option nat :=
  match calls with
  | [] => Some depth
  | PushFont :: calls' => font_depth (S depth) calls'
  | PopFont :: calls' =>
      match depth with
      | O => None
      | S depth' => font_depth depth' calls'
      end
  | _ :: calls' => font_depth depth calls'
  end.

(** The text drawn, in order. *)
Fixpoint drawn_text (calls : list imgui_call) : list std_string :=
  match calls with
  | [] => []
  | TextUnformatted text :: calls' => text :: drawn_text calls'
  | _ :: calls' => drawn_text calls'
  end.

(** The characters [imgui_multicolored_text] has drawn when it returns:
    those before the first NUL it stops at, without the line feeds and
    without the escape characters and the four bytes after each. *)
Fixpoint visible_text (mem : std_string) : std_string :=
  match mem with
  | [] => []
  | ch :: mem' =>
      if Ascii.eqb ch NUL then []
      else if Ascii.eqb ch LF then visible_text mem'
      else if Ascii.eqb ch ESC then
        match mem' with
        | _ :: _ :: _ :: _ :: mem'' => visible_text mem''
        | _ => []
        end
      else ch :: visible_text mem'
  end.

End Calls.

Arguments PushStyleColor_Text {ImVec4} col.
Arguments PopStyleColor {ImVec4} count.
Arguments SameLine {ImVec4}.
Arguments TextUnformatted {ImVec4} text.
Arguments NewLine {ImVec4}.
Arguments PushFont {ImVec4}.
Arguments PopFont {ImVec4}.
Arguments BeginTooltip {ImVec4}.
Arguments EndTooltip {ImVec4}.
Arguments flush_text {ImVec4} pending.
Arguments multicolored_loop {ImVec4} vec4_of_rgba mem pending.
Arguments imgui_multicolored_text {ImVec4} vec4_of_rgba mem color0.
Arguments imgui_push_smallfont {ImVec4} fonts.
Arguments imgui_pop_smallfont {ImVec4} fonts.
Arguments imgui_render_tooltip {ImVec4} vec4_of_rgba fonts color0
  g_imgui_tooltip.
Arguments style_depth {ImVec4} depth calls.
Arguments font_depth {ImVec4} depth calls.
Arguments drawn_text {ImVec4} calls.

(** A colour as its four bytes. *)
Definition rgba_bytes (r g b a : ascii) : ascii * ascii * ascii * ascii :=
  (r, g, b, a).

(** Text that [imgui_multicolored_text] can scan: characters, each escape
    character followed by four bytes of any value, and a NUL to stop
    at. *)
Inductive colored_text : std_string -> Prop :=
| colored_end rest : colored_text (NUL :: rest)
| colored_char ch mem :
    ch <> NUL -> ch <> ESC -> colored_text mem -> colored_text (ch :: mem)
| colored_escape r g b a mem :
    colored_text mem -> colored_text (ESC :: r :: g :: b :: a :: mem).

End Gui.

(* ================================================================== *)
(** * Properties of the log buffer *)
(* ================================================================== *)

Section LogFacts.

Import Log.

Implicit Types (s : state) (e : entry) (tid main : SDL_threadID)
  (cs : list call).

(** Two states with the same five fields are the same state. *)
Lemma state_eq s1 s2 :
  g_main_tid s1 = g_main_tid s2 ->
  g_log s1 = g_log s2 ->
  g_thread_log s1 = g_thread_log s2 ->
  g_mutex s1 = g_mutex s2 ->
  trace s1 = trace s2 ->
  s1 = s2.
Proof.
  destruct s1, s2; simpl; intros; subst; reflexivity.
Qed.

(** The push loop of [logf_update] appends the whole vector. *)
Lemma for_each_push_back v : forall s,
  for_each g_log_push_back v s =
  mkState (g_main_tid s) (g_log s ++ v) (g_thread_log s) (g_mutex s)
          (trace s ++ map EvPushLog v).
Proof.
  unfold for_each.
  induction v as [|x v IH]; intro s; simpl.
  - destruct s; simpl; now rewrite !app_nil_r.
  - rewrite IH; unfold g_log_push_back; simpl.
    now rewrite <- !app_assoc.
Qed.

(** The [free] loop of [logf_clear] touches no buffer. *)
Lemma for_each_free v : forall s,
  for_each free v s =
  mkState (g_main_tid s) (g_log s) (g_thread_log s) (g_mutex s)
          (trace s ++ map EvFree v).
Proof.
  unfold for_each.
  induction v as [|x v IH]; intro s; simpl.
  - destruct s; simpl; now rewrite app_nil_r.
  - rewrite IH; unfold free, emit; simpl.
    now rewrite <- !app_assoc.
Qed.

Lemma lock_fields s :
  g_main_tid (SDL_LockMutex s) = g_main_tid s /\
  g_log (SDL_LockMutex s) = g_log s /\
  g_thread_log (SDL_LockMutex s) = g_thread_log s.
Proof. unfold SDL_LockMutex; destruct (g_mutex s); auto. Qed.

Lemma unlock_fields s :
  g_main_tid (SDL_UnlockMutex s) = g_main_tid s /\
  g_log (SDL_UnlockMutex s) = g_log s /\
  g_thread_log (SDL_UnlockMutex s) = g_thread_log s.
Proof. unfold SDL_UnlockMutex; destruct (g_mutex s); auto. Qed.

(** What [logf] does to the three variables the buffers depend on. *)
Lemma logf_main_fields tid e s :
  tid = g_main_tid s ->
  g_main_tid (logf tid (Some e) s) = g_main_tid s /\
  g_log (logf tid (Some e) s) = g_log s ++ [e] /\
  g_thread_log (logf tid (Some e) s) = g_thread_log s.
Proof.
  intros ->; unfold logf; rewrite Z.eqb_refl; simpl; auto.
Qed.

Lemma logf_other_fields tid e s :
  tid <> g_main_tid s ->
  g_main_tid (logf tid (Some e) s) = g_main_tid s /\
  g_log (logf tid (Some e) s) = g_log s /\
  g_thread_log (logf tid (Some e) s) = g_thread_log s ++ [e].
Proof.
  intros Hne; unfold logf.
  apply Z.eqb_neq in Hne; rewrite Hne.
  destruct (unlock_fields (g_thread_log_push_back e (SDL_LockMutex s)))
    as (-> & -> & ->).
  destruct (lock_fields s) as (H1 & H2 & H3).
  simpl; rewrite H1, H2, H3; auto.
Qed.

(** What [logf_update] does to them, staged entries or not. *)
Lemma logf_update_fields s :
  g_main_tid (logf_update s) = g_main_tid s /\
  g_log (logf_update s) = g_log s ++ g_thread_log s /\
  g_thread_log (logf_update s) = [].
Proof.
  unfold logf_update.
  destruct (g_thread_log s) as [|x v] eqn:Hv; simpl.
  - rewrite Hv, app_nil_r; auto.
  - destruct (unlock_fields
      (g_thread_log_clear
         (for_each g_log_push_back (g_thread_log (SDL_LockMutex s))
            (SDL_LockMutex s)))) as (-> & -> & ->).
    rewrite for_each_push_back; simpl.
    destruct (lock_fields s) as (H1 & H2 & H3).
    rewrite H1, H2, H3, Hv; auto.
Qed.

(** With nothing staged [logf_update] takes its [else] branch. *)
Lemma logf_update_nothing_staged s :
  g_thread_log s = [] -> logf_update s = s.
Proof. intros He; unfold logf_update; now rewrite He. Qed.

Lemma exec_main_tid c s : g_main_tid (exec c s) = g_main_tid s.
Proof.
  destruct c as [tid [e|]|]; simpl; auto.
  - destruct (Z.eq_dec tid (g_main_tid s)) as [H|H].
    + apply (logf_main_fields tid e s H).
    + apply (logf_other_fields tid e s H).
  - apply logf_update_fields.
Qed.

Lemma run_cons c cs s : run (c :: cs) s = run cs (exec c s).
Proof. reflexivity. Qed.

Lemma run_app cs1 cs2 s : run (cs1 ++ cs2) s = run cs2 (run cs1 s).
Proof. unfold run; apply fold_left_app. Qed.

Lemma run_main_tid cs : forall s, g_main_tid (run cs s) = g_main_tid s.
Proof.
  induction cs as [|c cs IH]; intro s; [reflexivity|].
  rewrite run_cons, IH; apply exec_main_tid.
Qed.

(** Both buffers after any sequence of calls, in terms of the pieces the
    sequence is cut into at its Drain calls. *)
Lemma run_buffers cs : forall s,
  match split_drains cs with
  | ([], rest) =>
      g_log (run cs s) = g_log s ++ main_appends (g_main_tid s) rest /\
      g_thread_log (run cs s) =
        g_thread_log s ++ staged_appends (g_main_tid s) rest
  | (b :: bs, rest) =>
      g_log (run cs s) =
        g_log s ++ main_appends (g_main_tid s) b ++ g_thread_log s ++
        staged_appends (g_main_tid s) b ++
        concat (map (batch_contribution (g_main_tid s)) bs) ++
        main_appends (g_main_tid s) rest /\
      g_thread_log (run cs s) = staged_appends (g_main_tid s) rest
  end.
Proof.
  induction cs as [|c cs IH]; intro s.
  - simpl; rewrite !app_nil_r; auto.
  - rewrite run_cons.
    specialize (IH (exec c s)); rewrite exec_main_tid in IH.
    destruct c as [tid [e|]|]; simpl split_drains.
    + (* a successful append *)
      cbn [exec] in *.
      destruct (Z.eq_dec tid (g_main_tid s)) as [Hm|Hm].
      * destruct (logf_main_fields tid e s Hm) as (_ & Hl & Ht).
        rewrite Hl, Ht in IH.
        destruct (split_drains cs) as [[|b bs] rest];
          cbn [main_appends staged_appends];
          subst tid; rewrite Z.eqb_refl;
          destruct IH as [-> ->]; rewrite <- ?app_assoc; auto.
      * destruct (logf_other_fields tid e s Hm) as (_ & Hl & Ht).
        rewrite Hl, Ht in IH.
        apply Z.eqb_neq in Hm.
        destruct (split_drains cs) as [[|b bs] rest];
          cbn [main_appends staged_appends];
          rewrite Hm; destruct IH as [-> ->];
          rewrite <- ?app_assoc; auto.
    + (* formatting failed *)
      cbn [exec logf] in *.
      destruct (split_drains cs) as [[|b bs] rest];
        cbn [main_appends staged_appends]; exact IH.
    + (* a Drain *)
      cbn [exec] in *.
      destruct (logf_update_fields s) as (_ & Hl & Ht).
      rewrite Hl, Ht in IH.
      destruct (split_drains cs) as [[|b bs] rest];
        destruct IH as [-> ->];
        cbn [main_appends staged_appends map concat];
        unfold batch_contribution;
        rewrite <- ?app_assoc, ?app_nil_r; auto.
Qed.

(** A sequence of appends has no Drain to be cut at. *)
Lemma split_drains_append_calls l :
  split_drains (append_calls l) = ([], append_calls l).
Proof.
  induction l as [|ab l IH]; [reflexivity|].
  cbn [append_calls map split_drains] in *.
  fold (append_calls l); rewrite IH; reflexivity.
Qed.

End LogFacts.

Section LogClaims.

Import Log.
Local Open Scope string_scope.
Local Open Scope list_scope.

Implicit Types (s : state) (e : entry) (tid main : SDL_threadID)
  (cs : list call).

(** C1.  Starting with nothing staged, after any sequence of Append and
    Drain calls Read shows what it showed before followed by the
    interleaving the specification describes: per Drain, the main thread's
    entries since the previous Drain in call order, then the whole batch
    staged since the previous Drain in its own order; after the last Drain
    only the main thread's entries.  In particular A1 (main), B1 (another
    thread), Drain, A2 (main) reads [A1; B1; A2], whichever of A1 and B1
    came first. *)
Theorem logf_get_interleaves_batches :
  (forall s cs, g_thread_log s = [] ->
     logf_get (run cs s) =
     logf_get s ++ spec_interleaved_read (g_main_tid s) cs) /\
  (forall main other A1 B1 A2, other <> main ->
     logf_get (run [Append main (Some A1); Append other (Some B1); Drain;
                    Append main (Some A2)]
                   (logf_init main initial_state)) = [A1; B1; A2] /\
     logf_get (run [Append other (Some B1); Append main (Some A1); Drain;
                    Append main (Some A2)]
                   (logf_init main initial_state)) = [A1; B1; A2]).
Proof.
  assert (General : forall s cs, g_thread_log s = [] ->
     logf_get (run cs s) =
     logf_get s ++ spec_interleaved_read (g_main_tid s) cs).
  { intros s cs Hs. unfold logf_get, spec_interleaved_read.
    pose proof (run_buffers cs s) as H.
    destruct (split_drains cs) as [[|b bs] rest].
    - destruct H as [-> _]; reflexivity.
    - destruct H as [-> _]; rewrite Hs; simpl.
      unfold batch_contribution; now rewrite <- !app_assoc. }
  split; [exact General|].
  intros main other A1 B1 A2 Hne.
  apply Z.eqb_neq in Hne.
  split; rewrite General by reflexivity;
    unfold spec_interleaved_read; cbn -[Z.eqb];
    rewrite !Z.eqb_refl, !Hne; reflexivity.
Qed.

Lemma logf_get_interleaves_batches_witness :
  (g_thread_log (logf_init 1 initial_state) = [] /\
   logf_get (run [Append 2 (Some "w1"); Append 1 (Some "m1");
                  Append 2 (Some "w2"); Drain; Append 2 (Some "w3");
                  Append 1 (Some "m2")]
                 (logf_init 1 initial_state)) =
   ["m1"; "w1"; "w2"; "m2"]) /\
  (2 <> 1 /\
   logf_get (run [Append 1 (Some "A1"); Append 2 (Some "B1"); Drain;
                  Append 1 (Some "A2")]
                 (logf_init 1 initial_state)) = ["A1"; "B1"; "A2"]).
Proof.
  split; split.
  - reflexivity.
  - apply (proj1 logf_get_interleaves_batches
             (logf_init 1 initial_state)); reflexivity.
  - lia.
  - apply (proj2 logf_get_interleaves_batches 1 2 "A1" "B1" "A2"); lia.
Defined.

(** C2.  [logf_init] records the caller's thread identifier, which no
    later Append or Drain changes, and creates the mutex.  A [logf] call whose formatting succeeded pushes the entry
    on [g_log] without any lock operation when the caller is the recorded
    thread; otherwise it acquires the lock, pushes the entry on
    [g_thread_log] and releases the lock, leaving [g_log] untouched. *)
Theorem logf_routes_by_thread :
  (forall tid s,
     g_main_tid (logf_init tid s) = tid /\
     g_mutex (logf_init tid s) = Some O /\
     forall cs, g_main_tid (run cs (logf_init tid s)) = tid) /\
  (forall s tid e, tid = g_main_tid s ->
     logf tid (Some e) s =
     mkState (g_main_tid s) (g_log s ++ [e]) (g_thread_log s) (g_mutex s)
             (trace s ++ [EvPushLog e])) /\
  (forall s tid e n, tid <> g_main_tid s -> g_mutex s = Some n ->
     logf tid (Some e) s =
     mkState (g_main_tid s) (g_log s) (g_thread_log s ++ [e]) (Some n)
             (trace s ++ [EvLock; EvPushThreadLog e; EvUnlock])) /\
  (forall s tid buf, tid <> g_main_tid s ->
     g_log (logf tid buf s) = g_log s).
Proof.
  split; [|split; [|split]].
  - intros tid s; repeat split. intros cs; now rewrite run_main_tid.
  - intros s tid e ->; unfold logf; now rewrite Z.eqb_refl.
  - intros s tid e n Hne Hm; unfold logf.
    apply Z.eqb_neq in Hne; rewrite Hne.
    unfold SDL_UnlockMutex, g_thread_log_push_back, SDL_LockMutex.
    rewrite Hm; simpl. now rewrite <- !app_assoc.
  - intros s tid [e|] Hne; [|reflexivity].
    apply (logf_other_fields tid e s Hne).
Qed.

Lemma logf_routes_by_thread_witness :
  (1 = g_main_tid (logf_init 1 initial_state) /\
   logf 1 (Some "start") (logf_init 1 initial_state) =
   mkState 1 ["start"] [] (Some O) [EvPushLog "start"]) /\
  (2 <> g_main_tid (logf_init 1 initial_state) /\
   g_mutex (logf_init 1 initial_state) = Some O /\
   logf 2 (Some "worker 1") (logf_init 1 initial_state) =
   mkState 1 [] ["worker 1"] (Some O)
           [EvLock; EvPushThreadLog "worker 1"; EvUnlock]) /\
  g_log (logf 2 (Some "worker 1") (logf_init 1 initial_state)) = [].
Proof.
  pose proof logf_routes_by_thread as (_ & Hmain & Hother & Hnever).
  split; [split | split; [split; [|split] | ]].
  - reflexivity.
  - apply (Hmain (logf_init 1 initial_state) 1 "start"); reflexivity.
  - simpl; lia.
  - reflexivity.
  - apply (Hother (logf_init 1 initial_state) 2 "worker 1" O);
      [simpl; lia | reflexivity].
  - apply (Hnever (logf_init 1 initial_state) 2 (Some "worker 1"));
      simpl; lia.
Defined.

(** C3.  With staged entries, [logf_update] appends all of them, in
    order, to the end of [g_log] and leaves [g_thread_log] empty, doing so
    between one lock acquisition and one release; with nothing staged it
    changes nothing at all, so it acquires no lock. *)
Theorem logf_update_moves_staged s :
  (g_thread_log s <> [] ->
     g_log (logf_update s) = g_log s ++ g_thread_log s /\
     g_thread_log (logf_update s) = [] /\
     (forall n, g_mutex s = Some n ->
        g_mutex (logf_update s) = Some n /\
        trace (logf_update s) =
          trace s ++ [EvLock] ++ map EvPushLog (g_thread_log s) ++
          [EvClearThreadLog; EvUnlock])) /\
  (g_thread_log s = [] -> logf_update s = s).
Proof.
  split.
  - intros Hne.
    destruct (logf_update_fields s) as (_ & Hl & Ht).
    split; [exact Hl|split; [exact Ht|]].
    intros n Hm. unfold logf_update.
    destruct (g_thread_log s) as [|x v] eqn:Hv; [congruence|].
    cbn [List.length Nat.eqb negb].
    rewrite for_each_push_back.
    unfold SDL_UnlockMutex, g_thread_log_clear, SDL_LockMutex.
    rewrite Hm; cbn. rewrite Hv. split; [reflexivity|].
    now rewrite <- !app_assoc.
  - apply logf_update_nothing_staged.
Qed.

Lemma logf_update_moves_staged_witness :
  let s1 := mkState 1 ["start"] ["worker 1"; "worker 2"] (Some O) [] in
  let s2 := mkState 1 ["start"] [] (Some O) [] in
  (g_thread_log s1 <> [] /\
   g_log (logf_update s1) = ["start"; "worker 1"; "worker 2"] /\
   g_thread_log (logf_update s1) = []) /\
  (g_thread_log s2 = [] /\ logf_update s2 = s2).
Proof.
  intros s1 s2; split; split.
  - discriminate.
  - destruct (proj1 (logf_update_moves_staged s1)) as (H1 & H2 & _);
      [discriminate|]. split; [exact H1 | exact H2].
  - reflexivity.
  - apply (proj2 (logf_update_moves_staged s2)); reflexivity.
Defined.

(** C4.  [logf_clear] drains first: the entries it frees are those of
    [g_log] followed by the staged ones, so no staged entry escapes it.  It
    leaves both buffers empty, so Read shows nothing.  After any further
    appends and one Drain, Read shows exactly the entries of those appends
    whose formatting succeeded: the main thread's in call order, then the
    other threads' in call order, and nothing from before the Clear. *)
Theorem logf_clear_leaves_no_residue s :
  trace (logf_clear s) =
    trace (logf_update s) ++ map EvFree (g_log s ++ g_thread_log s) ++
    [EvClearLog] /\
  logf_get (logf_clear s) = [] /\
  g_thread_log (logf_clear s) = [] /\
  (forall l,
     let after := run (append_calls l ++ [Drain]) (logf_clear s) in
     logf_get after =
       main_appends (g_main_tid s) (append_calls l) ++
       staged_appends (g_main_tid s) (append_calls l) /\
     Permutation (logf_get after) (formatted l)).
Proof.
  destruct (logf_update_fields s) as (Hm & Hl & Ht).
  assert (Hc : g_main_tid (logf_clear s) = g_main_tid s /\
               g_log (logf_clear s) = [] /\
               g_thread_log (logf_clear s) = []).
  { unfold logf_clear; rewrite for_each_free; cbn; auto. }
  destruct Hc as (Hcm & Hcl & Hct).
  split; [|split; [exact Hcl|split; [exact Hct|]]].
  - unfold logf_clear; rewrite for_each_free; cbn.
    now rewrite Hl, <- app_assoc.
  - intros l after.
    assert (Hread : logf_get after =
       main_appends (g_main_tid s) (append_calls l) ++
       staged_appends (g_main_tid s) (append_calls l)).
    { subst after; unfold logf_get.
      rewrite run_app; cbn [run fold_left exec].
      destruct (logf_update_fields (run (append_calls l) (logf_clear s)))
        as (_ & -> & _).
      pose proof (run_buffers (append_calls l) (logf_clear s)) as H.
      rewrite split_drains_append_calls, Hcm, Hcl, Hct in H.
      destruct H as [-> ->]; reflexivity. }
    split; [exact Hread|].
    rewrite Hread; clear.
    induction l as [|[tid [e|]] l IH]; cbn -[Z.eqb] in *.
    + constructor.
    + destruct (tid =? g_main_tid s)%Z.
      * cbn; now constructor.
      * apply Permutation_sym, Permutation_cons_app, Permutation_sym, IH.
    + exact IH.
Qed.

(** C5.  A [logf] call whose formatting left a null pointer changes
    nothing: the state it returns, buffers, mutex and trace, is the state
    it was given, and it has no other result. *)
Theorem logf_null_is_noop tid s :
  logf tid None s = s /\
  g_log (logf tid None s) = g_log s /\
  g_thread_log (logf tid None s) = g_thread_log s.
Proof. repeat split. Qed.

(** C6.  Draining twice in a row is draining once: the second call
    returns the state the first one left, whatever the state was. *)
Theorem logf_update_idempotent s :
  logf_update (logf_update s) = logf_update s.
Proof.
  destruct (logf_update_fields s) as (_ & _ & Ht).
  apply logf_update_nothing_staged, Ht.
Qed.

(** C7 (as stated) fails for the main thread: right after a Drain, an
    entry appended by the main thread is shown by Read at once, with no
    further Drain. *)
Lemma logf_get_shows_undrained_main_append :
  ~ In "A" (logf_get (logf_update (logf_init 1 initial_state))) /\
  In "A" (logf_get (logf 1 (Some "A")
                      (logf_update (logf_init 1 initial_state)))).
Proof.
  split; [intros [] | left; reflexivity].
Qed.

(** C7 (amended).  Read is [g_log] itself, which calls only ever extend
    at its end.  Entries appended by threads other than the main one do
    not change what Read shows until the next Drain, which adds them after
    everything staged before; an entry appended by the main thread is
    shown at once. *)
Theorem logf_get_hides_staged_until_drain s :
  logf_get s = g_log s /\
  (forall cs, exists suffix, logf_get (run cs s) = logf_get s ++ suffix) /\
  (forall l, Forall (fun ab => fst ab <> g_main_tid s) l ->
     logf_get (run (append_calls l) s) = logf_get s /\
     logf_get (logf_update (run (append_calls l) s)) =
       logf_get s ++ g_thread_log s ++ formatted l) /\
  (forall e,
     logf_get (logf (g_main_tid s) (Some e) s) = logf_get s ++ [e]).
Proof.
  split; [reflexivity|split; [|split]].
  - intros cs; unfold logf_get.
    pose proof (run_buffers cs s) as H.
    destruct (split_drains cs) as [[|b bs] rest];
      destruct H as [-> _]; eexists; reflexivity.
  - intros l Hl; unfold logf_get.
    destruct (logf_update_fields (run (append_calls l) s)) as (_ & -> & _).
    pose proof (run_buffers (append_calls l) s) as H.
    assert (Hmain : main_appends (g_main_tid s) (append_calls l) = [] /\
                    staged_appends (g_main_tid s) (append_calls l) =
                    formatted l).
    { clear H. unfold append_calls, formatted.
      induction Hl as [|[tid [e|]] l Hne _ [IH1 IH2]];
        cbn -[Z.eqb] in *; auto.
      apply Z.eqb_neq in Hne; rewrite Hne, IH1.
      split; [reflexivity|]. f_equal; exact IH2. }
    rewrite split_drains_append_calls in H; destruct H as [-> ->].
    destruct Hmain as [-> ->]; rewrite app_nil_r; auto.
  - intros e. apply (logf_main_fields (g_main_tid s) e s eq_refl).
Qed.

Lemma logf_get_hides_staged_until_drain_witness :
  Forall (fun ab => fst ab <> g_main_tid (logf_init 1 initial_state))
         [(2, Some "worker 1"); (3, None); (2, Some "worker 2")] /\
  logf_get (run (append_calls [(2, Some "worker 1"); (3, None);
                               (2, Some "worker 2")])
                (logf_init 1 initial_state)) = [] /\
  logf_get (logf_update
              (run (append_calls [(2, Some "worker 1"); (3, None);
                                  (2, Some "worker 2")])
                   (logf_init 1 initial_state))) =
  ["worker 1"; "worker 2"].
Proof.
  assert (H : Forall
            (fun ab => fst ab <> g_main_tid (logf_init 1 initial_state))
            [(2, Some "worker 1"); (3, None); (2, Some "worker 2")]).
  { repeat constructor; simpl; lia. }
  split; [exact H|].
  exact (proj1 (proj2 (proj2
           (logf_get_hides_staged_until_drain (logf_init 1 initial_state))))
           _ H).
Defined.

(** The scenario the specification gives as a test. *)
Example logf_concrete_scenario :
  logf_get (run [Append 1 (Some "start"); Append 2 (Some "worker 1");
                 Append 2 (Some "worker 2"); Drain]
                (logf_init 1 initial_state)) =
  ["start"; "worker 1"; "worker 2"] /\
  logf_get (logf_update (logf_clear
              (run [Append 1 (Some "start"); Append 2 (Some "worker 1");
                    Append 2 (Some "worker 2"); Drain]
                   (logf_init 1 initial_state)))) = [].
Proof. split; reflexivity. Qed.

End LogClaims.

(* ================================================================== *)
(** * Interleaved statements against atomic calls *)
(* ================================================================== *)

Section ThreadsFacts.

Import Log Threads.
Local Open Scope string_scope.
Local Open Scope list_scope.

Implicit Types (t : tstate) (s : state) (w : SDL_threadID).

Lemma set_worker_same f w pc : set_worker f w pc w = pc.
Proof. unfold set_worker; now rewrite Z.eqb_refl. Qed.

Lemma set_worker_other f w pc x : x <> w -> set_worker f w pc x = f x.
Proof. unfold set_worker; intros H; apply Z.eqb_neq in H; now rewrite H. Qed.

Lemma consistent_init tid : consistent (t_init tid).
Proof. constructor; cbn; intros; congruence. Qed.

(** While the main thread holds the mutex no other thread is between its
    lock and its unlock, and the other way round. *)
Lemma mutual_exclusion t w :
  consistent t ->
  (exists buf, t_worker t w = WLocked buf) \/ t_worker t w = WPushed ->
  t_main t = MIdle \/ t_main t = MChecked.
Proof.
  intros C Hw.
  assert (Hown : t_owner t = Some w).
  { destruct Hw as [[buf Hw]|Hw];
      [apply (locked_worker_owns t C w buf Hw)
      |apply (pushed_worker_owns t C w Hw)]. }
  assert (Hne : w <> t_main_tid t).
  { apply (workers_are_not_main t C).
    destruct Hw as [[buf Hw]|Hw]; rewrite Hw; discriminate. }
  destruct (t_main t) as [| |i|] eqn:Hm; auto; exfalso.
  - pose proof (copying_main_owns t C i Hm); congruence.
  - destruct (cleared_main_owns t C Hm); congruence.
Qed.

Ltac worker_cases x w :=
  destruct (Z.eq_dec x w) as [->|?];
  [rewrite set_worker_same in * | rewrite set_worker_other in * by assumption].

(** What consistency says about the hypotheses at hand. *)
Ltac use_consistent Cne Clk Cpu Ccp Ccl :=
  repeat match goal with
  | H : t_worker ?t ?w = WLocked ?b |- _ =>
      lazymatch goal with
      | _ : t_owner t = Some w |- _ => fail
      | _ => pose proof (Clk w b H);
             assert (w <> t_main_tid t)
               by (apply Cne; rewrite H; discriminate)
      end
  | H : t_worker ?t ?w = WPushed |- _ =>
      lazymatch goal with
      | _ : t_owner t = Some w |- _ => fail
      | _ => pose proof (Cpu w H);
             assert (w <> t_main_tid t)
               by (apply Cne; rewrite H; discriminate)
      end
  | H : t_worker ?t ?w = WFormatted ?b |- _ =>
      lazymatch goal with
      | _ : w <> t_main_tid t |- _ => fail
      | _ => assert (w <> t_main_tid t)
               by (apply Cne; rewrite H; discriminate)
      end
  | H : t_main ?t = MCopying ?i |- _ =>
      lazymatch goal with
      | _ : t_owner t = Some (t_main_tid t) |- _ => fail
      | _ => pose proof (Ccp i H)
      end
  | H : t_main ?t = MCleared |- _ =>
      lazymatch goal with
      | _ : t_owner t = Some (t_main_tid t) |- _ => fail
      | _ => destruct (Ccl H)
      end
  end.

(** One statement preserves consistency and the recorded main thread. *)
Lemma step_consistent t c t' :
  consistent t -> step t c t' ->
  consistent t' /\ t_main_tid t' = t_main_tid t.
Proof.
  intros C Hstep; split; [|destruct Hstep; reflexivity].
  destruct C as [Cne Clk Cpu Ccp Ccl].
  destruct Hstep; try (constructor; assumption);
    constructor; cbn [t_main_tid t_log t_thread_log t_owner t_main t_worker];
    intros;
    try match goal with
    | H : set_worker _ ?w _ ?x <> _ |- _ => worker_cases x w
    | H : set_worker _ ?w _ ?x = _ |- _ => worker_cases x w
    end;
    use_consistent Cne Clk Cpu Ccp Ccl;
    try congruence; eauto; try (exfalso; congruence).
  all: try (split; congruence).
Qed.

Lemma skipn_nth_error (l : list entry) i str :
  nth_error l i = Some str -> skipn i l = str :: skipn (S i) l.
Proof.
  revert l; induction i as [|i IH]; intros [|x l] H; try discriminate.
  - now injection H as ->.
  - cbn [nth_error] in H. now apply IH.
Qed.

(** One statement against the atomic calls: the statement at which a call
    takes effect changes the settled vectors as the whole call does, every
    other statement leaves them alone. *)
Lemma step_settles t c t' s :
  consistent t -> step t c t' ->
  g_main_tid s = t_main_tid t -> buffers s = settled t ->
  buffers (match c with Some x => exec x s | None => s end) = settled t'.
Proof.
  intros C Hstep Htid Hbuf.
  unfold buffers in *.
  destruct Hstep; unfold settled in *;
    cbn [t_main_tid t_log t_thread_log t_owner t_main t_worker exec] in *.
  - (* main thread, push *)
    rewrite H in Hbuf; injection Hbuf as Hl Ht.
    destruct (logf_main_fields (t_main_tid t) buf s (eq_sym Htid))
      as (_ & -> & ->). now rewrite Hl, Ht.
  - exact Hbuf.
  - (* size() is zero *)
    rewrite H in Hbuf; injection Hbuf as Hl Ht.
    destruct (logf_update_fields s) as (_ & -> & ->).
    now rewrite H, Hl, Ht, H0, app_nil_r.
  - now rewrite H in Hbuf.
  - (* the lock is taken *)
    rewrite H in Hbuf; injection Hbuf as Hl Ht.
    destruct (logf_update_fields s) as (_ & -> & ->).
    now rewrite Hl, Ht.
  - (* one entry copied *)
    rewrite H in Hbuf. rewrite Hbuf, (skipn_nth_error _ _ _ H0).
    now rewrite <- app_assoc.
  - (* clear() *)
    rewrite H in Hbuf. rewrite Hbuf.
    apply nth_error_None in H0. now rewrite skipn_all2, app_nil_r.
  - (* unlock *)
    rewrite H in Hbuf. destruct (cleared_main_owns t C H) as [_ ->].
    exact Hbuf.
  - exact Hbuf.
  - exact Hbuf.
  - exact Hbuf.
  - (* another thread, push *)
    assert (Hne : w <> g_main_tid s).
    { rewrite Htid; apply (workers_are_not_main t C).
      rewrite H; discriminate. }
    destruct (logf_other_fields w buf s Hne) as (_ & -> & ->).
    destruct (mutual_exclusion t w C (or_introl (ex_intro _ buf H)))
      as [Hm|Hm]; rewrite Hm in *; injection Hbuf as -> ->; reflexivity.
  - exact Hbuf.
Qed.

(** Every interleaving of statements leaves the vectors as the atomic
    calls do, taken in the order in which they took effect. *)
Lemma steps_settle t cs t' :
  steps t cs t' ->
  forall s, consistent t ->
  g_main_tid s = t_main_tid t -> buffers s = settled t ->
  consistent t' /\ buffers (run cs s) = settled t'.
Proof.
  induction 1 as [t|t1 t2 cs t3 Hstep _ IH|t1 x t2 cs t3 Hstep _ IH];
    intros s C Htid Hbuf.
  - split; assumption.
  - destruct (step_consistent _ _ _ C Hstep) as [C2 Htid2].
    pose proof (step_settles _ _ _ s C Hstep Htid Hbuf) as Hbuf2.
    apply IH; [assumption| |assumption]. now rewrite Htid2.
  - destruct (step_consistent _ _ _ C Hstep) as [C2 Htid2].
    pose proof (step_settles _ _ _ s C Hstep Htid Hbuf) as Hbuf2.
    rewrite run_cons. apply IH; [assumption| |assumption].
    now rewrite exec_main_tid, Htid2.
Qed.

(** X1.  Started after [logf_init], whenever the main thread is between calls
    (where alone it can call [logf_get]) the two vectors are those the
    atomic calls produce, whatever the other threads are in the middle
    of. *)
Theorem interleaved_statements_linearize main cs t :
  steps (t_init main) cs t -> t_main t = MIdle ->
  t_log t = logf_get (run cs (logf_init main initial_state)) /\
  t_thread_log t = g_thread_log (run cs (logf_init main initial_state)).
Proof.
  intros Hsteps Hidle.
  destruct (steps_settle _ _ _ Hsteps (logf_init main initial_state)
              (consistent_init main) eq_refl eq_refl) as [_ Hbuf].
  unfold buffers, settled in Hbuf; rewrite Hidle in Hbuf.
  injection Hbuf as Hl Ht; unfold logf_get; split; congruence.
Qed.

(** One more statement of an execution, silent or taking effect. *)
Ltac silent rule :=
  eapply steps_silent; [rule|];
  cbn [t_main_tid t_log t_thread_log t_owner t_main t_worker t_init app].

Ltac effect rule :=
  eapply steps_effect; [rule|];
  cbn [t_main_tid t_log t_thread_log t_owner t_main t_worker t_init app].

(** An execution in which a second thread stages an entry while the main
    thread is between the [size()] test and the lock of [logf_update]. *)
Example interleaved_execution :
  exists t,
    steps (t_init 1)
      [Append 2 (Some "B1"); Append 1 (Some "A1"); Append 3 (Some "B2");
       Drain] t /\
    t_main t = MIdle /\ t_log t = ["A1"; "B1"; "B2"] /\ t_thread_log t = [].
Proof.
  eexists; split.
  - silent ltac:(apply (worker_logf_formatted _ 2 "B1");
                 [cbn; lia|reflexivity]).
    silent ltac:(apply (worker_lock _ 2 "B1"); reflexivity).
    effect ltac:(apply (worker_push _ 2 "B1"); reflexivity).
    effect ltac:(idtac; match goal with |- step ?t _ _ =>
                   apply (main_logf_push t "A1"); reflexivity end).
    silent ltac:(apply (worker_unlock _ 2); reflexivity).
    silent ltac:(apply update_size_nonzero; [reflexivity|discriminate]).
    silent ltac:(apply (worker_logf_formatted _ 3 "B2");
                 [cbn; lia|reflexivity]).
    silent ltac:(apply (worker_lock _ 3 "B2"); reflexivity).
    effect ltac:(apply (worker_push _ 3 "B2"); reflexivity).
    silent ltac:(apply (worker_unlock _ 3); reflexivity).
    effect ltac:(apply update_lock; reflexivity).
    silent ltac:(apply (update_push _ 0 "B1"); reflexivity).
    silent ltac:(apply (update_push _ 1 "B2"); reflexivity).
    silent ltac:(apply (update_clear _ 2); reflexivity).
    silent ltac:(apply update_unlock; reflexivity).
    apply steps_refl.
  - repeat split.
Qed.

End ThreadsFacts.

(* ================================================================== *)
(** * Properties of the component codecs *)
(* ================================================================== *)

Section CompFacts.

Import Str Comp.

Lemma pow_2_32 : 2 ^ 32 = 4294967296.
Proof. reflexivity. Qed.

Ltac unfold32 :=
  unfold add32, sub32, mul32, to_uint32 in *; rewrite ?pow_2_32 in *.

(** C8.  Encoding a triple with [a] in 1..2, [b] in 0..3, [c] in 0..8 and
    decoding the index gives [true] and the triple back; every index in
    0..71 decodes with [true] to a triple that encodes to it; every larger
    32-bit index decodes with [false]. *)
Theorem comp_val_abc_roundtrip :
  (forall a b c, 1 <= a <= 2 -> 0 <= b <= 3 -> 0 <= c <= 8 ->
     comp_val_to_abc (comp_abc_to_val a b c) = (true, (a, b, c))) /\
  (forall val, 0 <= val <= 71 ->
     exists a b c,
       comp_val_to_abc val = (true, (a, b, c)) /\
       1 <= a <= 2 /\ 0 <= b <= 3 /\ 0 <= c <= 8 /\
       comp_abc_to_val a b c = val) /\
  (forall val, 72 <= val < 2 ^ 32 ->
     fst (comp_val_to_abc val) = false).
Proof.
  split; [|split].
  - intros a b c Ha Hb Hc.
    unfold comp_val_to_abc, comp_abc_to_val; unfold32.
    assert (Hv : (((a - 1) mod 4294967296 * 36) mod 4294967296 +
                  (b * 9) mod 4294967296) mod 4294967296 + c =
                 (a - 1) * 36 + b * 9 + c).
    { rewrite (Z.mod_small (a - 1)) by lia.
      rewrite (Z.mod_small ((a - 1) * 36)) by lia.
      rewrite (Z.mod_small (b * 9)) by lia.
      rewrite Z.mod_small by lia. reflexivity. }
    rewrite Hv, (Z.mod_small ((a - 1) * 36 + b * 9 + c)) by lia.
    set (v := (a - 1) * 36 + b * 9 + c).
    assert (H36 : v / 36 = a - 1).
    { symmetry; apply (Z.div_unique v 36 (a - 1) (b * 9 + c)); lia. }
    assert (H9 : v / 9 = (a - 1) * 4 + b).
    { symmetry; apply (Z.div_unique v 9 ((a - 1) * 4 + b) c); lia. }
    assert (Hc9 : v mod 9 = c).
    { symmetry; apply (Z.mod_unique v 9 ((a - 1) * 4 + b) c); lia. }
    assert (Hb4 : ((a - 1) * 4 + b) mod 4 = b).
    { symmetry; apply (Z.mod_unique _ 4 (a - 1) b); lia. }
    rewrite H36, H9, Hc9, Hb4, Z.mod_small by lia.
    replace (a - 1 + 1) with a by lia.
    replace (a <=? 2) with true by (symmetry; apply Z.leb_le; lia).
    reflexivity.
  - intros val Hval.
    exists (val / 36 + 1), ((val / 9) mod 4), (val mod 9).
    assert (Hq : 0 <= val / 36 <= 1).
    { split; [apply Z.div_pos; lia|].
      apply Z.lt_succ_r, Z.div_lt_upper_bound; lia. }
    assert (Hb : 0 <= (val / 9) mod 4 < 4) by (apply Z.mod_pos_bound; lia).
    assert (Hc : 0 <= val mod 9 < 9) by (apply Z.mod_pos_bound; lia).
    assert (E : val / 36 * 36 + (val / 9) mod 4 * 9 + val mod 9 = val).
    { assert (H94 : val / 9 / 4 = val / (9 * 4)) by (apply Z.div_div; lia).
      change (9 * 4) with 36 in H94.
      pose proof (Z.div_mod (val / 9) 4 ltac:(lia)) as E4.
      pose proof (Z.div_mod val 9 ltac:(lia)) as E9.
      lia. }
    unfold comp_val_to_abc, comp_abc_to_val; unfold32.
    generalize dependent (val / 36); intros q Hq.
    generalize dependent ((val / 9) mod 4); intros b Hb.
    generalize dependent (val mod 9); intros c Hc E.
    rewrite (Z.mod_small (q + 1)) by lia.
    replace (q + 1 <=? 2) with true by (symmetry; apply Z.leb_le; lia).
    repeat (split; [reflexivity || lia|]).
    replace (q + 1 - 1) with q by lia.
    rewrite (Z.mod_small q) by lia.
    rewrite (Z.mod_small (q * 36)) by lia.
    rewrite (Z.mod_small (b * 9)) by lia.
    rewrite (Z.mod_small (q * 36 + b * 9)) by lia.
    rewrite Z.mod_small by lia.
    exact E.
  - intros val Hval; rewrite pow_2_32 in Hval.
    unfold comp_val_to_abc; unfold32; cbn [fst].
    assert (Hq : 2 <= val / 36 < 4294967295).
    { split; [apply Z.div_le_lower_bound; lia|].
      apply Z.div_lt_upper_bound; lia. }
    rewrite Z.mod_small by lia.
    apply Z.leb_gt; lia.
Qed.

Lemma comp_val_abc_roundtrip_witness :
  (1 <= 2 <= 2 /\ 0 <= 3 <= 3 /\ 0 <= 8 <= 8 /\
   comp_val_to_abc (comp_abc_to_val 2 3 8) = (true, (2, 3, 8))) /\
  (0 <= 40 <= 71 /\
   exists a b c,
     comp_val_to_abc 40 = (true, (a, b, c)) /\
     1 <= a <= 2 /\ 0 <= b <= 3 /\ 0 <= c <= 8 /\
     comp_abc_to_val a b c = 40) /\
  (72 <= 72 < 2 ^ 32 /\ fst (comp_val_to_abc 72) = false).
Proof.
  pose proof comp_val_abc_roundtrip as (Henc & Hdec & Hbig).
  split; [|split].
  - repeat (split; [lia|]). apply (Henc 2 3 8); lia.
  - split; [lia|]. apply (Hdec 40); lia.
  - split; [rewrite pow_2_32; lia|]. apply (Hbig 72); rewrite pow_2_32; lia.
Defined.

End CompFacts.

(* ================================================================== *)
(** * Properties of the component string codec *)
(* ================================================================== *)

Section CompStrFacts.

Import Str Comp.

Lemma code_inj x y : code x = code y -> x = y.
Proof.
  unfold code; intros H. apply Nat2Z.inj in H.
  rewrite <- (ascii_nat_embedding x), <- (ascii_nat_embedding y).
  now rewrite H.
Qed.

(** [strncmp] against a NUL-free string of [n] characters is zero exactly
    on the strings that start with it. *)
Lemma strncmp_zero_prefix p : forall s,
  Forall (fun ch => ch <> NUL) p ->
  strncmp s p (List.length p) = 0 <-> exists rest, s = p ++ rest.
Proof.
  induction p as [|y p IH]; intros s Hp.
  - split; [intros _; exists s; reflexivity | intros _; reflexivity].
  - inversion Hp as [|? ? Hy Hp']; subst.
    destruct s as [|x s]; cbn [strncmp List.length].
    + split.
      * intros H. exfalso.
        assert (code y = 0) by lia.
        apply Hy, code_inj; rewrite H0; reflexivity.
      * intros [rest Hr]; discriminate.
    + destruct (Ascii.eqb_spec x y) as [->|Hxy].
      * destruct (Ascii.eqb_spec y NUL) as [Hn|_]; [contradiction|].
        rewrite IH by assumption.
        split; intros [rest Hr]; exists rest.
        -- now rewrite Hr.
        -- now injection Hr.
      * split.
        -- intros H; exfalso; apply Hxy, code_inj; lia.
        -- intros [rest Hr]; injection Hr; intros; contradiction.
Qed.

Lemma strncmp_comp_prefix s :
  strncmp s (lit "comp_") 5 = 0 <-> exists rest, s = lit "comp_" ++ rest.
Proof.
  apply (strncmp_zero_prefix (lit "comp_")).
  repeat constructor; discriminate.
Qed.

(** A digit character is [digit_char] of its value. *)
Lemma isdigit_digit_char ch :
  isdigit ch = true ->
  0 <= code ch - code "0" <= 9 /\ ch = digit_char (code ch - code "0").
Proof.
  destruct ch as [[] [] [] [] [] [] [] []];
    (discriminate || (intros _; split; [vm_compute; split; discriminate | reflexivity])).
Qed.

(** Truncating a buffer that starts with [full] to the length of [full]. *)
Lemma resize_prefix (full tl : std_string) :
  resize (full ++ tl) (List.length full) = full.
Proof.
  unfold resize.
  rewrite firstn_app, firstn_all, Nat.sub_diag, firstn_O, app_nil_r.
  rewrite length_app.
  replace (List.length full - (List.length full + List.length tl))%nat
    with O by lia.
  now rewrite app_nil_r.
Qed.

(** [vsnprintf] with room for the whole text. *)
Lemma vsnprintf_fits buf size fmt args :
  (List.length (vformat fmt args) < size)%nat ->
  exists tl,
    vsnprintf buf size fmt args =
    (vformat fmt args ++ tl, Z.of_nat (List.length (vformat fmt args))).
Proof.
  intros Hlt; unfold vsnprintf.
  destruct size as [|size]; [lia|].
  rewrite firstn_all2 by lia.
  eexists; reflexivity.
Qed.

(** [string_formatv] returns a text shorter than 512 characters in the
    first pass of its loop. *)
Lemma string_formatv_short fmt args fuel :
  (1 <= fuel)%nat -> (List.length (vformat fmt args) < 512)%nat ->
  string_formatv fuel fmt args = Some (vformat fmt args).
Proof.
  intros Hfuel Hshort.
  destruct fuel as [|fuel]; [lia|].
  unfold string_formatv.
  set (full := vformat fmt args) in *.
  cbn [string_formatv_loop].
  destruct (vsnprintf_fits (resize [] (Z.to_nat 512)) (Z.to_nat 512)
              fmt args) as [tl ->]; [fold full; lia|].
  fold full.
  replace (Z.of_nat (List.length full) >? -1) with true
    by (symmetry; apply Z.gtb_lt; lia).
  replace (Z.of_nat (List.length full) <? 512) with true
    by (symmetry; apply Z.ltb_lt; lia).
  cbn [andb]. now rewrite Nat2Z.id, resize_prefix.
Qed.

(** [%u] of a one-digit value is that digit. *)
Lemma utoa_digit d : 0 <= d <= 9 -> utoa d = [digit_char d].
Proof.
  intros Hd; unfold utoa; cbn [utoa_digits].
  rewrite Z.div_small, Z.mod_small by lia. reflexivity.
Qed.

Lemma comp_str_create_abc_digits fuel a b c :
  (2 <= fuel)%nat -> 0 <= a <= 9 -> 0 <= b <= 9 -> 0 <= c <= 9 ->
  comp_str_create_abc fuel a b c = Some (comp_text a b c).
Proof.
  intros Hfuel Ha Hb Hc.
  unfold comp_str_create_abc, string_format.
  assert (Htext : vformat (lit "comp_%u.%u.%u") [a; b; c] = comp_text a b c).
  { cbn [lit list_ascii_of_string vformat].
    rewrite !utoa_digit by assumption. reflexivity. }
  rewrite string_formatv_short; [now rewrite Htext|lia|].
  rewrite Htext. cbn. lia.
Qed.

(** [comp_str_parse] accepts every string that starts with a component
    text in range, and reads the components off it. *)
Lemma comp_str_parse_accepts a b c rest a0 b0 c0 :
  1 <= a <= 2 -> 0 <= b <= 3 -> 0 <= c <= 8 ->
  comp_str_parse (comp_text a b c ++ rest) a0 b0 c0 =
  Some (true, (a, b, c)).
Proof.
  intros Ha Hb Hc.
  assert (Ea : a = 1 \/ a = 2) by lia.
  assert (Eb : b = 0 \/ b = 1 \/ b = 2 \/ b = 3) by lia.
  assert (Ec : c = 0 \/ c = 1 \/ c = 2 \/ c = 3 \/ c = 4 \/ c = 5 \/
               c = 6 \/ c = 7 \/ c = 8) by lia.
  clear Ha Hb Hc.
  repeat match goal with H : _ \/ _ |- _ => destruct H as [H|H] end;
    subst; reflexivity.
Qed.

(** [comp_str_parse] never reads past the terminator; it returns [false],
    or the string starts with a component text in range. *)
Lemma comp_str_parse_cases comp a0 b0 c0 :
  (exists abc, comp_str_parse comp a0 b0 c0 = Some (false, abc)) \/
  (exists a b c rest,
     1 <= a <= 2 /\ 0 <= b <= 3 /\ 0 <= c <= 8 /\
     comp = comp_text a b c ++ rest).
Proof.
  destruct (Z.eqb_spec (strncmp comp (lit "comp_") 5) 0) as [E|E].
  2: { left; unfold comp_str_parse.
       apply Z.eqb_neq in E; rewrite E; eexists; reflexivity. }
  pose proof E as [r ->]%strncmp_comp_prefix.
  unfold comp_str_parse; rewrite E; clear E.
  change (negb (0 =? 0)) with false; cbv iota.
  destruct r as [|c5 [|c6 [|c7 [|c8 [|c9 rest]]]]];
    cbn -[Ascii.eqb isdigit code to_uint32 Z.leb comp_text];
    repeat match goal with
    | |- context [negb ?b] =>
        let E := fresh "E" in
        destruct b eqn:E; cbn [negb];
        try (vm_compute in E; discriminate E);
        [| left; eexists; reflexivity]
    end;
    try (left; eexists; reflexivity).
  destruct (isdigit_digit_char c7 E1) as [Hb7 Eb7].
  destruct (isdigit_digit_char c9 E3) as [Hc9 Ec9].
  unfold to_uint32; rewrite pow_2_32.
  rewrite (Z.mod_small (code c7 - code "0")), (Z.mod_small (code c9 - code "0"))
    by lia.
  destruct ((code c7 - code "0" <=? 3) && (code c9 - code "0" <=? 8)) eqn:Hflag;
    [|left; eexists; reflexivity].
  apply andb_true_iff in Hflag as [Hb Hc].
  apply Z.leb_le in Hb, Hc.
  right.
  exists (code c5 - code "0"), (code c7 - code "0"), (code c9 - code "0"), rest.
  apply Ascii.eqb_eq in E0, E2; subst c6 c8.
  assert (E5 : c5 = digit_char (code c5 - code "0") /\
               1 <= code c5 - code "0" <= 2).
  { apply orb_true_iff in E as [E|E]; apply Ascii.eqb_eq in E; subst c5;
      (split; [reflexivity | split; discriminate]). }
  destruct E5 as [Ea5 Ha5].
  repeat (split; [lia|]).
  unfold comp_text; cbn [lit list_ascii_of_string app].
  now rewrite <- Ea5, <- Eb7, <- Ec9.
Qed.

(** C9 (as stated) fails on trailing text: neither string is of the
    form, the first has a character after the third component and the
    second a two-digit third component, and [comp_str_parse] returns
    [true] on both. *)
Lemma comp_str_parse_accepts_trailing_text :
  (comp_str_parse (lit "comp_1.2.3x") 0 0 0 = Some (true, (1, 2, 3)) /\
   ~ comp_form (lit "comp_1.2.3x")) /\
  (comp_str_parse (lit "comp_1.2.33") 0 0 0 = Some (true, (1, 2, 3)) /\
   ~ comp_form (lit "comp_1.2.33")).
Proof.
  split; (split; [reflexivity|]);
    intros (a & b & c & _ & _ & _ & H);
    apply (f_equal (@List.length ascii)) in H; discriminate H.
Qed.

(** C9 (amended).  For [a] in 1..2, [b] in 0..3, [c] in 0..8,
    [comp_str_create_abc] returns a string of the form
    [comp_[1-2].[0-3].[0-8]] that [comp_str_parse] accepts, assigning
    exactly [a], [b], [c].  [comp_str_parse] returns [false], without
    reading past the terminator, on every string that does not begin with
    ten characters of that form; it returns [true] on every string that
    does, whatever follows them. *)
Theorem comp_str_parse_create_roundtrip :
  (forall fuel a b c,
     (2 <= fuel)%nat -> 1 <= a <= 2 -> 0 <= b <= 3 -> 0 <= c <= 8 ->
     exists str,
       comp_str_create_abc fuel a b c = Some str /\ comp_form str /\
       forall a0 b0 c0,
         comp_str_parse str a0 b0 c0 = Some (true, (a, b, c))) /\
  (forall comp a0 b0 c0,
     ~ (exists p rest, comp_form p /\ comp = p ++ rest) ->
     exists abc, comp_str_parse comp a0 b0 c0 = Some (false, abc)) /\
  (forall p rest a0 b0 c0, comp_form p ->
     exists abc, comp_str_parse (p ++ rest) a0 b0 c0 = Some (true, abc)).
Proof.
  split; [|split].
  - intros fuel a b c Hfuel Ha Hb Hc.
    exists (comp_text a b c); split; [|split].
    + apply comp_str_create_abc_digits; (assumption || lia).
    + exists a, b, c; auto.
    + intros a0 b0 c0.
      rewrite <- (app_nil_r (comp_text a b c)).
      now apply comp_str_parse_accepts.
  - intros comp a0 b0 c0 Hnot.
    destruct (comp_str_parse_cases comp a0 b0 c0)
      as [Hrej|(a & b & c & rest & Ha & Hb & Hc & ->)]; [exact Hrej|].
    exfalso; apply Hnot.
    exists (comp_text a b c), rest; split; [|reflexivity].
    exists a, b, c; auto.
  - intros p rest a0 b0 c0 (a & b & c & Ha & Hb & Hc & ->).
    exists (a, b, c). now apply comp_str_parse_accepts.
Qed.

Lemma comp_str_parse_create_roundtrip_witness :
  ((2 <= 2)%nat /\ 1 <= 2 <= 2 /\ 0 <= 3 <= 3 /\ 0 <= 8 <= 8 /\
   exists str,
     comp_str_create_abc 2 2 3 8 = Some str /\ comp_form str /\
     forall a0 b0 c0,
       comp_str_parse str a0 b0 c0 = Some (true, (2, 3, 8))) /\
  (~ (exists p rest, comp_form p /\ lit "comp_1.2" = p ++ rest) /\
   exists abc, comp_str_parse (lit "comp_1.2") 7 7 7 = Some (false, abc)) /\
  (comp_form (comp_text 1 0 5) /\
   exists abc,
     comp_str_parse (comp_text 1 0 5 ++ lit " gfx") 0 0 0 =
     Some (true, abc)).
Proof.
  pose proof comp_str_parse_create_roundtrip as (Hround & Hrej & Hacc).
  assert (Hshort :
    ~ (exists p rest, comp_form p /\ lit "comp_1.2" = p ++ rest)).
  { intros (p & rest & (a & b & c & _ & _ & _ & ->) & H).
    apply (f_equal (@List.length ascii)) in H.
    rewrite length_app in H; cbn in H; lia. }
  assert (Hform : comp_form (comp_text 1 0 5)).
  { exists 1, 0, 5; repeat split; lia. }
  split; [|split].
  - repeat (split; [lia|]). apply (Hround 2%nat 2 3 8); lia.
  - split; [exact Hshort|]. apply (Hrej (lit "comp_1.2") 7 7 7 Hshort).
  - split; [exact Hform|].
    apply (Hacc (comp_text 1 0 5) (lit " gfx") 0 0 0 Hform).
Defined.

End CompStrFacts.

(* ================================================================== *)
(** * Properties of [string_replace_str] *)
(* ================================================================== *)

Section StrFacts.

Import Str.

Implicit Types (s search replace u t : std_string).

Lemma first_occurrence_unfold search s :
  first_occurrence search s =
  if prefixb search s then Some O
  else match s with
       | [] => None
       | _ :: s' => option_map S (first_occurrence search s')
       end.
Proof. destruct s; reflexivity. Qed.

Lemma prefixb_app search t : prefixb search (search ++ t) = true.
Proof.
  induction search as [|x p IH]; [reflexivity|].
  cbn; now rewrite Ascii.eqb_refl, IH.
Qed.

Lemma prefixb_true search : forall s,
  prefixb search s = true -> exists t, s = search ++ t.
Proof.
  induction search as [|x p IH]; intros s H.
  - exists s; reflexivity.
  - destruct s as [|y s]; [discriminate|].
    cbn in H; apply andb_true_iff in H as [Hxy Hp].
    apply Ascii.eqb_eq in Hxy; subst y.
    destruct (IH s Hp) as [t ->]. exists t; reflexivity.
Qed.

Lemma prefixb_app_r search s t :
  prefixb search s = true -> prefixb search (s ++ t) = true.
Proof.
  intros H; destruct (prefixb_true search s H) as [t' ->].
  rewrite <- app_assoc; apply prefixb_app.
Qed.

(** Where [first_occurrence] finds [search]: the text before the match
    and the text after it. *)
Lemma first_occurrence_some search : forall s k,
  first_occurrence search s = Some k ->
  exists u t,
    s = u ++ search ++ t /\ List.length u = k /\
    first_occurrence search (u ++ search) = Some k.
Proof.
  induction s as [|x s IH]; intros k H;
    rewrite first_occurrence_unfold in H.
  - destruct (prefixb search []) eqn:Hp; [|discriminate].
    injection H as <-.
    destruct (prefixb_true _ _ Hp) as [t Ht].
    exists [], t; repeat split; [exact Ht|].
    cbn [app]; rewrite first_occurrence_unfold.
    rewrite <- (app_nil_r search) at 2. now rewrite prefixb_app.
  - destruct (prefixb search (x :: s)) eqn:Hp.
    + injection H as <-.
      destruct (prefixb_true _ _ Hp) as [t Ht].
      exists [], t; repeat split; [exact Ht|].
      cbn [app]; rewrite first_occurrence_unfold.
      rewrite <- (app_nil_r search) at 2. now rewrite prefixb_app.
    + destruct (first_occurrence search s) as [k'|] eqn:Hk; [|discriminate].
      injection H as <-.
      destruct (IH k' eq_refl) as (u & t & -> & Hlen & Hfirst).
      exists (x :: u), t; repeat split.
      * cbn; now rewrite Hlen.
      * cbn [app]; rewrite first_occurrence_unfold.
        destruct (prefixb search (x :: u ++ search)) eqn:Hp'.
        -- apply (prefixb_app_r _ _ t) in Hp'.
           cbn [app] in Hp'; rewrite <- app_assoc in Hp'; congruence.
        -- now rewrite Hfirst.
Qed.

(** A piece that ends at the first match contains no match itself. *)
Lemma first_occurrence_before search : forall u,
  search <> [] ->
  first_occurrence search (u ++ search) = Some (List.length u) ->
  first_occurrence search u = None.
Proof.
  intros u Hne; induction u as [|x u IH]; intros H.
  - destruct search; [contradiction|reflexivity].
  - rewrite first_occurrence_unfold in H |- *; cbn [app] in H.
    destruct (prefixb search (x :: u ++ search)) eqn:Hp; [discriminate|].
    destruct (prefixb search (x :: u)) eqn:Hp'.
    + apply (prefixb_app_r _ _ search) in Hp'; cbn [app] in Hp'; congruence.
    + destruct (first_occurrence search (u ++ search)) as [k|] eqn:Hk;
        [|discriminate].
      cbn in H; injection H as ->. now rewrite IH.
Qed.

Lemma firstn_exact (a b : std_string) : firstn (List.length a) (a ++ b) = a.
Proof.
  rewrite firstn_app, firstn_all, Nat.sub_diag, firstn_O; apply app_nil_r.
Qed.

Lemma skipn_exact (a b : std_string) : skipn (List.length a) (a ++ b) = b.
Proof.
  rewrite skipn_app, skipn_all, Nat.sub_diag; reflexivity.
Qed.

(** One replacement, on a string cut at the match. *)
Lemma erase_insert done u search replace t :
  string_insert
    (string_erase ((done ++ u) ++ search ++ t)
       (List.length (done ++ u)) (List.length search))
    (List.length (done ++ u)) replace =
  (done ++ u ++ replace) ++ t.
Proof.
  unfold string_insert, string_erase.
  rewrite firstn_exact.
  replace (skipn (List.length (done ++ u) + List.length search)
             ((done ++ u) ++ search ++ t)) with t.
  2: { rewrite app_assoc, <- length_app; now rewrite skipn_exact. }
  rewrite firstn_exact, skipn_exact.
  now rewrite <- !app_assoc.
Qed.

Lemma string_find_at done todo search :
  string_find (done ++ todo) search (List.length done) =
  option_map (Nat.add (List.length done)) (first_occurrence search todo).
Proof.
  unfold string_find.
  rewrite skipn_exact, length_app.
  destruct (Nat.leb_spec (List.length done)
              (List.length done + List.length todo)); [reflexivity|lia].
Qed.

Lemma join_cons sep u us :
  us <> [] -> join sep (u :: us) = u ++ sep ++ join sep us.
Proof. destruct us; [contradiction|reflexivity]. Qed.

Lemma leftmost_pieces_nonempty search us :
  leftmost_pieces search us -> us <> [].
Proof. destruct us; [contradiction|discriminate]. Qed.

(** The loop of [string_replace_str] on a search string and a
    replacement in objects of their own, started at the end of [done]
    with [todo] still to scan: the pieces [todo] is cut into do not
    depend on [done], on the replacement or on the fuel. *)
Lemma string_replace_str_loop_pieces search replace :
  search <> [] ->
  forall n todo, List.length todo = n ->
  exists us,
    todo = join search us /\ leftmost_pieces search us /\
    forall done fuel, (List.length todo < fuel)%nat ->
      string_replace_str_loop fuel (done ++ todo) (Own search) (Own replace)
        (List.length done) =
      Some (done ++ join replace us).
Proof.
  intros Hne n; induction n as [n IH] using lt_wf_ind; intros todo Hlen.
  destruct (first_occurrence search todo) as [k|] eqn:Hfind.
  - destruct (first_occurrence_some _ _ _ Hfind) as (u & t & -> & Hk & Hu).
    assert (Hs : (0 < List.length search)%nat)
      by (destruct search; [contradiction|cbn; lia]).
    destruct (IH (List.length t)) with (todo := t) as (us & Ht & Hus & Hrun);
      [rewrite <- Hlen, !length_app; lia | reflexivity |].
    pose proof (leftmost_pieces_nonempty _ _ Hus) as Hnil.
    exists (u :: us); split; [|split].
    + rewrite join_cons by assumption; now rewrite <- Ht.
    + destruct us; [contradiction|]. split; [now rewrite Hk|exact Hus].
    + intros done fuel Hfuel.
      destruct fuel as [|fuel]; [lia|].
      cbn [string_replace_str_loop deref].
      rewrite string_find_at, Hfind; cbn [option_map].
      rewrite <- Hk, <- length_app, app_assoc, erase_insert.
      replace (List.length (done ++ u) + List.length replace)%nat
        with (List.length (done ++ u ++ replace))
        by (rewrite !length_app; lia).
      rewrite Hrun by (rewrite !length_app in Hfuel; lia).
      rewrite join_cons by assumption.
      now rewrite <- !app_assoc.
  - exists [todo]; split; [reflexivity|split; [exact Hfind|]].
    intros done fuel Hfuel.
    destruct fuel as [|fuel]; [lia|].
    cbn [string_replace_str_loop deref].
    now rewrite string_find_at, Hfind.
Qed.

Lemma leftmost_pieces_free search us :
  search <> [] -> leftmost_pieces search us ->
  Forall (fun u => first_occurrence search u = None) us.
Proof.
  intros Hne; induction us as [|u us IH]; [contradiction|].
  destruct us as [|v us].
  - intros H; constructor; [exact H|constructor].
  - intros [Hu Hrest]; constructor; [|apply IH, Hrest].
    now apply first_occurrence_before.
Qed.

(** With an empty search string and a replacement in an object of its
    own the loop never breaks: [find] succeeds at every position up to
    the length, and the position stays there. *)
Lemma string_replace_str_loop_empty_search replace : forall fuel s pos,
  (pos <= List.length s)%nat ->
  string_replace_str_loop fuel s (Own []) (Own replace) pos = None.
Proof.
  induction fuel as [|fuel IH]; intros s pos Hpos; [reflexivity|].
  cbn [string_replace_str_loop deref]. unfold string_find.
  destruct (Nat.leb_spec pos (List.length s)) as [_|]; [|lia].
  rewrite first_occurrence_unfold; cbn [prefixb option_map].
  apply IH.
  unfold string_insert, string_erase.
  rewrite !length_app, !length_firstn, !length_skipn, !length_app.
  rewrite !length_firstn, !length_skipn. cbn [List.length]. lia.
Qed.

(** ** Arguments bound to the subject *)

(** A string occurs in itself, at the start. *)
Lemma string_find_self s : string_find s s 0 = Some O.
Proof.
  unfold string_find; cbn [Nat.leb skipn].
  rewrite first_occurrence_unfold.
  rewrite <- (app_nil_r s) at 2. now rewrite prefixb_app.
Qed.

(** The empty string is found wherever [find] may start. *)
Lemma string_find_empty s pos :
  (pos <= List.length s)%nat -> string_find s [] pos = Some pos.
Proof.
  intros Hpos; unfold string_find.
  destruct (Nat.leb_spec pos (List.length s)) as [_|]; [|lia].
  rewrite first_occurrence_unfold; cbn [prefixb option_map].
  now rewrite Nat.add_0_r.
Qed.

(** Nothing but the empty string is found from the end on. *)
Lemma string_find_from_end s search pos :
  search <> [] -> (List.length s <= pos)%nat ->
  string_find s search pos = None.
Proof.
  intros Hne Hpos; unfold string_find.
  destruct (Nat.leb_spec pos (List.length s)) as [Hle|]; [|reflexivity].
  rewrite skipn_all2 by lia.
  destruct search; [contradiction|reflexivity].
Qed.

(** [find] from behind the end finds nothing. *)
Lemma string_find_from_past s search pos :
  (List.length s < pos)%nat -> string_find s search pos = None.
Proof.
  intros Hpos; unfold string_find.
  destruct (Nat.leb_spec pos (List.length s)); [lia|reflexivity].
Qed.

Lemma string_erase_all s : string_erase s 0 (List.length s) = [].
Proof. unfold string_erase; cbn [firstn Nat.add app]. apply skipn_all. Qed.

Lemma string_erase_nothing s pos : string_erase s pos 0 = s.
Proof. unfold string_erase. rewrite Nat.add_0_r. apply firstn_skipn. Qed.

Lemma string_erase_at u search t :
  string_erase (u ++ search ++ t) (List.length u) (List.length search) =
  u ++ t.
Proof.
  unfold string_erase. rewrite firstn_exact.
  now rewrite app_assoc, <- length_app, skipn_exact.
Qed.

Lemma string_insert_at u t str :
  string_insert (u ++ t) (List.length u) str = u ++ str ++ t.
Proof. unfold string_insert. now rewrite firstn_exact, skipn_exact. Qed.

Lemma string_insert_empty str : string_insert [] 0 str = str.
Proof. unfold string_insert; cbn [firstn skipn app]. apply app_nil_r. Qed.

(** Once the subject is empty, a search string bound to it is empty too
    and is found at the start for ever, as long as nothing is inserted. *)
Lemma string_replace_str_loop_emptied (r : str_ref) :
  deref r [] = [] ->
  forall fuel, string_replace_str_loop fuel [] Subject r 0 = None.
Proof.
  intros Hr; induction fuel as [|fuel IH]; [reflexivity|].
  cbn [string_replace_str_loop deref].
  rewrite string_find_self.
  change (List.length (@nil ascii)) with O.
  rewrite string_erase_nothing, Hr, string_insert_empty, Hr.
  exact IH.
Qed.

(** A search string bound to the subject is found at the start, and the
    whole subject is erased. *)
Lemma string_replace_str_search_subject s (r : str_ref) fuel :
  string_replace_str (S fuel) s Subject r =
  string_replace_str_loop fuel (deref r []) Subject r
    (List.length (deref r (deref r []))).
Proof.
  unfold string_replace_str; cbn [string_replace_str_loop deref].
  rewrite string_find_self, string_erase_all, string_insert_empty.
  reflexivity.
Qed.

Lemma string_insert_front s str : string_insert s 0 str = str ++ s.
Proof. reflexivity. Qed.

Lemma string_insert_back s str :
  string_insert s (List.length s) str = s ++ str.
Proof.
  unfold string_insert.
  now rewrite firstn_all, skipn_all, app_nil_r.
Qed.

(** One pass with an empty search string and the subject as the
    replacement: the subject is inserted into itself, and the scan
    position moves on by the length of the result. *)
Lemma string_replace_str_loop_self_insert fuel s pos :
  (pos <= List.length s)%nat ->
  string_replace_str_loop (S fuel) s (Own []) Subject pos =
  string_replace_str_loop fuel (string_insert s pos s) (Own []) Subject
    (pos + List.length (string_insert s pos s)).
Proof.
  intros Hpos. cbn [string_replace_str_loop deref List.length].
  rewrite string_find_empty by assumption.
  now rewrite string_erase_nothing.
Qed.

(** An empty subject with an empty search string and itself as the
    replacement: nothing is inserted, and the loop stays where it is. *)
Lemma string_replace_str_loop_all_empty : forall fuel,
  string_replace_str_loop fuel [] (Own []) Subject 0 = None.
Proof.
  induction fuel as [|fuel IH]; [reflexivity|].
  cbn [string_replace_str_loop deref].
  rewrite string_find_empty by (cbn; lia).
  rewrite string_erase_nothing, string_insert_empty.
  exact IH.
Qed.

(** C10 (as stated) fails in three ways.  Text on the two sides of a
    replacement can join up: with an empty replacement nothing is
    inserted, and the result still contains the search string.  A search
    string bound to the subject itself is emptied with it, and the empty
    string is then found for ever.  A replacement bound to the subject
    grows with it, and the scan position jumps over text that was never
    scanned. *)
Lemma string_replace_str_fails_as_stated :
  (string_replace_str 5 (lit "aabb") (Own (lit "ab")) (Own (lit "")) =
     Some (lit "ab") /\
   string_find (lit "ab") (lit "ab") 0 = Some O) /\
  (lit "ab" <> [] /\
   forall fuel, string_replace_str fuel (lit "ab") Subject (Own (lit "")) =
                None) /\
  (string_replace_str 2 (lit "aba") (Own (lit "a")) Subject =
     Some (lit "baba") /\
   string_find (lit "baba") (lit "a") 2 = Some 3%nat).
Proof.
  split; [split; reflexivity|split; [split; [discriminate|]|split; reflexivity]].
  intros [|fuel]; [reflexivity|].
  rewrite string_replace_str_search_subject.
  now apply string_replace_str_loop_emptied.
Qed.

(** C10 (amended).  For a non-empty search string and a replacement that
    are objects other than the subject, [string_replace_str] terminates
    on every subject, within one iteration more than the subject has
    characters.  The subject is cut at successive leftmost occurrences of
    the search string, found from left to right in the text not yet
    scanned, and the result is the pieces with the replacement between
    them.  The loop leaves alone whatever lies before its scan position,
    which it moves past each replacement it inserts: inserted text is
    never scanned.  No piece of original text between two insertions
    contains the search string. *)
Theorem string_replace_str_terminates s search replace :
  search <> [] ->
  exists us,
    s = join search us /\
    leftmost_pieces search us /\
    Forall (fun u => first_occurrence search u = None) us /\
    (forall fuel, (List.length s < fuel)%nat ->
       string_replace_str fuel s (Own search) (Own replace) =
       Some (join replace us)) /\
    (forall done fuel, (List.length s < fuel)%nat ->
       string_replace_str_loop fuel (done ++ s) (Own search) (Own replace)
         (List.length done) =
       Some (done ++ join replace us)).
Proof.
  intros Hne.
  destruct (string_replace_str_loop_pieces search replace Hne
              (List.length s) s eq_refl) as (us & Hs & Hus & Hrun).
  exists us; split; [exact Hs|split; [exact Hus|split; [|split]]].
  - now apply leftmost_pieces_free.
  - intros fuel Hfuel. apply (Hrun [] fuel Hfuel).
  - exact Hrun.
Qed.

Lemma string_replace_str_terminates_witness :
  lit "a" <> [] /\
  exists us,
    lit "a.a" = join (lit "a") us /\
    leftmost_pieces (lit "a") us /\
    Forall (fun u => first_occurrence (lit "a") u = None) us /\
    (forall fuel, (List.length (lit "a.a") < fuel)%nat ->
       string_replace_str fuel (lit "a.a") (Own (lit "a")) (Own (lit "aa")) =
       Some (join (lit "aa") us)) /\
    (forall done fuel, (List.length (lit "a.a") < fuel)%nat ->
       string_replace_str_loop fuel (done ++ lit "a.a")
         (Own (lit "a")) (Own (lit "aa")) (List.length done) =
       Some (done ++ join (lit "aa") us)).
Proof.
  split; [discriminate|].
  apply (string_replace_str_terminates (lit "a.a") (lit "a") (lit "aa")).
  discriminate.
Defined.

(** The replacement may contain the search string. *)
Example string_replace_str_growing :
  string_replace_str 4 (lit "a.a") (Own (lit "a")) (Own (lit "aa")) =
  Some (lit "aa.aa").
Proof. reflexivity. Qed.

End StrFacts.

(* ================================================================== *)
(** * Properties of [string_replace_char] *)
(* ================================================================== *)

Section ReplaceCharFacts.

Import Str StrUtil.

Implicit Types (s u t done todo : std_string) (search replace ch : ascii).

Lemma index_of_some ch : forall s k,
  index_of ch s = Some k ->
  exists u t, s = u ++ ch :: t /\ List.length u = k /\ ~ In ch u.
Proof.
  induction s as [|x s IH]; intros k H; [discriminate|].
  cbn [index_of] in H.
  destruct (Ascii.eqb_spec x ch) as [->|Hne].
  - injection H as <-. exists [], s; repeat split. intros [].
  - destruct (index_of ch s) as [k'|]; [|discriminate].
    injection H as <-.
    destruct (IH k' eq_refl) as (u & t & -> & Hlen & Hu).
    exists (x :: u), t; repeat split; [cbn; now rewrite Hlen|].
    intros [E|E]; [now apply Hne|now apply Hu].
Qed.

Lemma index_of_none ch : forall s, index_of ch s = None -> ~ In ch s.
Proof.
  induction s as [|x s IH]; intros H; [intros []|].
  cbn [index_of] in H.
  destruct (Ascii.eqb_spec x ch) as [->|Hne]; [discriminate|].
  destruct (index_of ch s); [discriminate|].
  intros [E|E]; [now apply Hne|now apply IH].
Qed.

Lemma string_find_char_at done todo ch :
  string_find_char (done ++ todo) ch (List.length done) =
  option_map (Nat.add (List.length done)) (index_of ch todo).
Proof.
  unfold string_find_char.
  rewrite skipn_app, skipn_all, Nat.sub_diag, length_app; cbn [skipn app].
  destruct (Nat.leb_spec (List.length done)
              (List.length done + List.length todo)); [reflexivity|lia].
Qed.

Lemma string_set_at done x t ch :
  string_set (done ++ x :: t) (List.length done) ch = done ++ ch :: t.
Proof.
  unfold string_set.
  rewrite firstn_app, firstn_all, Nat.sub_diag, firstn_O, app_nil_r.
  replace (S (List.length done)) with (List.length (done ++ [x]))
    by (rewrite length_app; cbn; lia).
  replace (done ++ x :: t) with ((done ++ [x]) ++ t)
    by (now rewrite <- app_assoc).
  now rewrite skipn_app, skipn_all, Nat.sub_diag.
Qed.

Lemma replace_each_absent search replace s :
  ~ In search s -> replace_each search replace s = s.
Proof.
  induction s as [|x s IH]; intros H; [reflexivity|].
  cbn [replace_each map]; fold (replace_each search replace s).
  destruct (Ascii.eqb_spec x search) as [->|_].
  - exfalso; apply H; now left.
  - rewrite IH; [reflexivity|]. intros E; apply H; now right.
Qed.

Lemma count_occ_absent search s :
  ~ In search s -> count_occ ascii_dec s search = O.
Proof. apply count_occ_not_In. Qed.

(** The loop, started at the end of [done]. *)
Lemma string_replace_char_loop_map search replace :
  search <> replace ->
  forall fuel todo done,
    (count_occ ascii_dec todo search < fuel)%nat ->
    string_replace_char_loop fuel (done ++ todo) search replace
      (List.length done) =
    Some (done ++ replace_each search replace todo).
Proof.
  intros Hne; induction fuel as [|fuel IH]; intros todo done Hfuel; [lia|].
  cbn [string_replace_char_loop].
  rewrite string_find_char_at.
  destruct (index_of search todo) as [k|] eqn:Hfind; cbn [option_map].
  - destruct (index_of_some _ _ _ Hfind) as (u & t & -> & Hk & Hu).
    rewrite <- Hk, <- length_app, app_assoc, string_set_at.
    rewrite count_occ_app, (count_occ_absent _ _ Hu) in Hfuel.
    cbn [count_occ] in Hfuel.
    destruct (ascii_dec search search) as [_|C]; [|contradiction].
    rewrite (IH (replace :: t) (done ++ u)).
    + unfold replace_each at 1; cbn [map].
      destruct (Ascii.eqb_spec replace search) as [E|_];
        [symmetry in E; contradiction|].
      fold (replace_each search replace t).
      unfold replace_each at 2; rewrite map_app; cbn [map].
      fold (replace_each search replace u) (replace_each search replace t).
      rewrite Ascii.eqb_refl, (replace_each_absent _ _ _ Hu).
      now rewrite <- app_assoc.
    + cbn [count_occ].
      destruct (ascii_dec replace search) as [E|_];
        [symmetry in E; contradiction|lia].
  - apply index_of_none in Hfind.
    now rewrite (replace_each_absent _ _ _ Hfind).
Qed.

(** X5.  With [replace] different from [search], [string_replace_char]
    ends after one round per occurrence and one more, and has then
    replaced every [search] character by [replace], leaving the other
    characters and the length alone. *)
Theorem string_replace_char_replaces_all s search replace fuel :
  search <> replace ->
  (count_occ ascii_dec s search < fuel)%nat ->
  string_replace_char fuel s search replace =
    Some (replace_each search replace s) /\
  List.length (replace_each search replace s) = List.length s /\
  ~ In search (replace_each search replace s).
Proof.
  intros Hne Hfuel; split; [|split].
  - apply (string_replace_char_loop_map search replace Hne fuel s []).
    exact Hfuel.
  - apply length_map.
  - unfold replace_each; rewrite in_map_iff.
    intros (x & Hx & _).
    destruct (Ascii.eqb_spec x search); congruence.
Qed.

Lemma string_replace_char_replaces_all_witness :
  "/"%char <> "_"%char /\
  (count_occ ascii_dec (lit "a/b/c") "/"%char < 3)%nat /\
  string_replace_char 3 (lit "a/b/c") "/" "_" = Some (lit "a_b_c").
Proof.
  split; [discriminate|split; [cbn; lia|]].
  apply (string_replace_char_replaces_all (lit "a/b/c") "/" "_" 3);
    [discriminate|cbn; lia].
Defined.

(** The loop never leaves an occurrence it found when the replacement is
    the character searched for. *)
Lemma string_replace_char_loop_same search : forall fuel done t,
  string_replace_char_loop fuel (done ++ search :: t) search search
    (List.length done) = None.
Proof.
  induction fuel as [|fuel IH]; intros done t; [reflexivity|].
  cbn [string_replace_char_loop].
  rewrite string_find_char_at; cbn [index_of].
  rewrite Ascii.eqb_refl; cbn [option_map].
  rewrite Nat.add_0_r, string_set_at. apply IH.
Qed.

(** X6.  Called with [replace] equal to [search], [string_replace_char]
    never ends on a string that contains the character: the position is
    not advanced past the character just written, so the same occurrence
    is found again.  On a string without the character it returns at
    once, the string unchanged. *)
Theorem string_replace_char_same_char s search :
  (In search s ->
     forall fuel, string_replace_char fuel s search search = None) /\
  (~ In search s ->
     forall fuel, (0 < fuel)%nat ->
       string_replace_char fuel s search search = Some s).
Proof.
  split.
  - intros Hin fuel.
    destruct (index_of search s) as [k|] eqn:Hfind.
    + destruct (index_of_some _ _ _ Hfind) as (u & t & -> & Hk & Hu).
      destruct fuel as [|fuel]; [reflexivity|].
      unfold string_replace_char; cbn [string_replace_char_loop].
      pose proof (string_find_char_at [] (u ++ search :: t) search) as Hat.
      cbn [app List.length] in Hat; rewrite Hat, Hfind.
      cbn [option_map Nat.add].
      rewrite <- Hk, string_set_at.
      apply (string_replace_char_loop_same search fuel u t).
    + exfalso; now apply (index_of_none _ _ Hfind).
  - intros Hnot fuel Hfuel.
    destruct fuel as [|fuel]; [lia|].
    unfold string_replace_char; cbn [string_replace_char_loop].
    pose proof (string_find_char_at [] s search) as Hat.
    cbn [app List.length] in Hat; rewrite Hat.
    destruct (index_of search s) as [k|] eqn:Hfind; [|reflexivity].
    destruct (index_of_some _ _ _ Hfind) as (u & t & -> & _ & _).
    exfalso; apply Hnot, in_or_app; right; now left.
Qed.

Lemma string_replace_char_same_char_witness :
  (In "/"%char (lit "a/b") /\
   forall fuel, string_replace_char fuel (lit "a/b") "/" "/" = None) /\
  (~ In "/"%char (lit "ab") /\ (0 < 1)%nat /\
   string_replace_char 1 (lit "ab") "/" "/" = Some (lit "ab")).
Proof.
  assert (Hin : In "/"%char (lit "a/b")) by (right; left; reflexivity).
  assert (Hnot : ~ In "/"%char (lit "ab")).
  { intros [E|[E|[]]]; discriminate. }
  split; [split; [exact Hin|]|split; [exact Hnot|split; [lia|]]].
  - apply (proj1 (string_replace_char_same_char (lit "a/b") "/") Hin).
  - apply (proj2 (string_replace_char_same_char (lit "ab") "/") Hnot 1%nat).
    lia.
Defined.

End ReplaceCharFacts.

(* ================================================================== *)
(** * Properties of [string_explode] and [string_implode] *)
(* ================================================================== *)

Section ExplodeFacts.

Import Str StrUtil.

Implicit Types (s token : std_string) (delim : ascii)
  (toks result : list std_string).

(** The loop of [string_implode] appends the elements still to visit with
    the delimiter between them. *)
Lemma string_implode_loop_join delimiter : forall rest i n full,
  (i + List.length rest = n)%nat ->
  string_implode_loop rest i n delimiter full = full ++ join delimiter rest.
Proof.
  induction rest as [|x rest IH]; intros i n full Hn.
  - cbn; now rewrite app_nil_r.
  - cbn [string_implode_loop List.length] in *.
    rewrite (IH (S i) n) by lia.
    destruct rest as [|y rest].
    + cbn [List.length] in Hn.
      replace (i =? n - 1)%nat with true by (symmetry; apply Nat.eqb_eq; lia).
      cbn; now rewrite !app_nil_r.
    + cbn [List.length] in Hn.
      replace (i =? n - 1)%nat with false
        by (symmetry; apply Nat.eqb_neq; lia).
      cbn [negb join]. now rewrite <- !app_assoc.
Qed.

Lemma string_implode_join elements delimiter :
  string_implode elements delimiter = join delimiter elements.
Proof.
  unfold string_implode.
  now rewrite (string_implode_loop_join delimiter elements O
                 (List.length elements) []).
Qed.

Lemma join_snoc delimiter : forall xs y,
  join delimiter (xs ++ [y]) =
  concat (map (fun x => x ++ delimiter) xs) ++ y.
Proof.
  induction xs as [|x xs IH]; intros y; [reflexivity|].
  cbn [app map concat].
  destruct xs as [|x' xs].
  - cbn. now rewrite app_nil_r, <- app_assoc.
  - change (join delimiter (x :: (x' :: xs) ++ [y]))
      with (x ++ delimiter ++ join delimiter ((x' :: xs) ++ [y])).
    rewrite IH. now rewrite <- !app_assoc.
Qed.

(** X9.  [string_implode] writes every element but the last followed by
    the delimiter, then the last element: no delimiter at the end, and
    the empty string for an empty vector, whose [end() - 1] is never
    formed. *)
Theorem string_implode_delimits delimiter :
  string_implode [] delimiter = [] /\
  forall xs y,
    string_implode (xs ++ [y]) delimiter =
    concat (map (fun x => x ++ delimiter) xs) ++ y.
Proof.
  split; [reflexivity|].
  intros xs y. now rewrite string_implode_join, join_snoc.
Qed.

Lemma read_until_spec delim : forall iss token rest,
  read_until delim iss = (token, rest) ->
  ~ In delim token /\
  (iss = token ++ delim :: rest \/ (iss = token /\ rest = [])).
Proof.
  induction iss as [|x iss IH]; intros token rest H.
  - injection H as <- <-. split; [intros []|right; auto].
  - cbn [read_until] in H.
    destruct (Ascii.eqb_spec x delim) as [->|Hne].
    + injection H as <- <-. split; [intros []|left; reflexivity].
    + destruct (read_until delim iss) as [tok r] eqn:E.
      injection H as <- <-.
      destruct (IH tok r eq_refl) as [Hnot Hcases].
      split.
      * intros [E'|E']; [now apply Hne|now apply Hnot].
      * destruct Hcases as [->|[-> ->]]; [left|right]; auto.
Qed.

Lemma read_until_delim delim : forall token rest,
  ~ In delim token ->
  read_until delim (token ++ delim :: rest) = (token, rest).
Proof.
  induction token as [|x token IH]; intros rest Hnot.
  - cbn; now rewrite Ascii.eqb_refl.
  - cbn [app read_until].
    destruct (Ascii.eqb_spec x delim) as [->|_];
      [exfalso; apply Hnot; now left|].
    rewrite IH; [reflexivity|]. intros E; apply Hnot; now right.
Qed.

Lemma read_until_end delim : forall token,
  ~ In delim token -> read_until delim token = (token, []).
Proof.
  induction token as [|x token IH]; intros Hnot; [reflexivity|].
  cbn [read_until].
  destruct (Ascii.eqb_spec x delim) as [->|_];
    [exfalso; apply Hnot; now left|].
  rewrite IH; [reflexivity|]. intros E; apply Hnot; now right.
Qed.

Lemma join_terminated delim : forall toks,
  toks <> [] ->
  join [delim] toks ++ [delim] =
  concat (map (fun token => token ++ [delim]) toks).
Proof.
  induction toks as [|token toks IH]; intros Hne; [contradiction|].
  destruct toks as [|token' toks].
  - cbn; now rewrite app_nil_r.
  - change (join [delim] (token :: token' :: toks))
      with (token ++ [delim] ++ join [delim] (token' :: toks)).
    rewrite map_cons, concat_cons, <- IH by discriminate.
    now rewrite <- !app_assoc.
Qed.

Lemma last_after_delim delim token (rest : std_string) :
  last (token ++ delim :: rest) delim = last rest delim.
Proof.
  induction token as [|x token IH].
  - destruct rest; reflexivity.
  - cbn [app]. rewrite <- IH.
    destruct (token ++ delim :: rest) eqn:E; [|reflexivity].
    destruct token; discriminate.
Qed.

Lemma last_in (l : std_string) d : l <> [] -> In (last l d) l.
Proof.
  induction l as [|x l IH]; intros Hne; [contradiction|].
  destruct l as [|y l]; [now left|].
  right; apply IH; discriminate.
Qed.

(** The loop of [string_explode] on what is left of the stream: the
    tokens, each followed by the delimiter, spell what is left, up to a
    delimiter missing at the very end. *)
Lemma string_explode_loop_tokens delim : forall n s,
  List.length s = n ->
  exists toks,
    Forall (fun token => ~ In delim token) toks /\
    (s <> [] -> toks <> []) /\
    concat (map (fun token => token ++ [delim]) toks) =
      (if ascii_dec (last s delim) delim then s else s ++ [delim]) /\
    forall result fuel, (List.length s < fuel)%nat ->
      string_explode_loop fuel s delim result = Some (result ++ toks).
Proof.
  induction n as [n IH] using lt_wf_ind; intros s Hlen.
  destruct s as [|x s0].
  { exists []; repeat split; auto.
    - cbn. now destruct (ascii_dec delim delim).
    - intros result fuel Hfuel. destruct fuel; [cbn in Hfuel; lia|].
      cbn; now rewrite app_nil_r. }
  set (s := x :: s0) in *.
  assert (Hs0 : s <> []) by discriminate.
  destruct (read_until delim s) as [token rest] eqn:Hread.
  destruct (read_until_spec _ _ _ _ Hread) as [Hnot Hcases].
  assert (Hget : getline s delim = Some (token, rest))
    by (unfold getline; subst s; cbv iota; now rewrite Hread).
  clearbody s.
  destruct Hcases as [Hs|[Hs Hrest]].
  - (* a delimiter ends the token *)
    assert (Hshort : (List.length rest < List.length s)%nat)
      by (rewrite Hs, length_app; cbn; lia).
    destruct (IH (List.length rest)) with (s := rest)
      as (toks' & Hall & Hne & Hspell & Hrun);
      [lia|reflexivity|].
    exists (token :: toks'); split; [|split; [|split]].
    + now constructor.
    + discriminate.
    + cbn [map concat]. rewrite Hspell, Hs, last_after_delim.
      destruct (ascii_dec (last rest delim) delim);
        now rewrite <- !app_assoc.
    + intros result fuel Hfuel.
      destruct fuel as [|fuel]; [lia|].
      cbn [string_explode_loop].
      rewrite Hget, Hrun by lia. now rewrite <- app_assoc.
  - (* the stream ends the token *)
    subst rest token.
    exists [s]; split; [|split; [|split]].
    + constructor; [exact Hnot|constructor].
    + discriminate.
    + cbn [map concat]. rewrite app_nil_r.
      destruct (ascii_dec (last s delim) delim) as [E|_]; [|reflexivity].
      exfalso; apply Hnot. rewrite <- E. now apply last_in.
    + intros result fuel Hfuel.
      destruct fuel as [|[|fuel]]; [lia| |].
      * destruct s; [contradiction|cbn in Hfuel; lia].
      * cbn [string_explode_loop]. rewrite Hget. reflexivity.
Qed.

(** X10.  [string_explode] ends on every string, within one round per
    character and one more.  No token contains the delimiter, and joining
    the tokens with the delimiter gives the string back, except that a
    delimiter at the very end of the string is dropped: nothing follows
    it, so it starts no token. *)
Theorem string_explode_tokens s delim :
  exists toks,
    (forall fuel, (List.length s < fuel)%nat ->
       string_explode fuel s delim = Some toks) /\
    Forall (fun token => ~ In delim token) toks /\
    (forall s', s = s' ++ [delim] -> string_implode toks [delim] = s') /\
    ((forall s', s <> s' ++ [delim]) -> string_implode toks [delim] = s).
Proof.
  destruct (string_explode_loop_tokens delim (List.length s) s eq_refl)
    as (toks & Hall & Hne & Hspell & Hrun).
  exists toks; split; [|split; [exact Hall|split]].
  - intros fuel Hfuel. apply (Hrun [] fuel Hfuel).
  - intros s' Hs'. rewrite string_implode_join.
    assert (Htoks : toks <> []) by (apply Hne; rewrite Hs'; now destruct s').
    rewrite <- (join_terminated delim toks Htoks) in Hspell.
    rewrite Hs', last_last in Hspell.
    destruct (ascii_dec delim delim) as [_|C]; [|contradiction].
    apply app_inj_tail in Hspell. exact (proj1 Hspell).
  - intros Hnoend. rewrite string_implode_join.
    destruct s as [|x s0].
    + destruct toks as [|token toks]; [reflexivity|].
      cbn [map concat] in Hspell.
      destruct (ascii_dec (last [] delim) delim) as [_|C];
        [destruct token; discriminate | exfalso; apply C; reflexivity].
    + set (s := x :: s0) in *.
      assert (Htoks : toks <> []) by (apply Hne; discriminate).
      rewrite <- (join_terminated delim toks Htoks) in Hspell.
      destruct (ascii_dec (last s delim) delim) as [E|_].
      * exfalso; apply (Hnoend (removelast s)).
        rewrite <- E. apply app_removelast_last. discriminate.
      * apply app_inj_tail in Hspell. exact (proj1 Hspell).
Qed.

(** The loop of [string_explode] on joined tokens. *)
Lemma string_explode_loop_join delim : forall toks result fuel,
  Forall (fun token => ~ In delim token) toks ->
  last toks [delim] <> [] ->
  (List.length (join [delim] toks) < fuel)%nat ->
  string_explode_loop fuel (join [delim] toks) delim result =
  Some (result ++ toks).
Proof.
  induction toks as [|token toks IH]; intros result fuel Hall Hlast Hfuel.
  - destruct fuel; [cbn in Hfuel; lia|]. cbn; now rewrite app_nil_r.
  - inversion Hall as [|? ? Hnot Hall']; subst.
    destruct toks as [|token' toks].
    + (* the last token: the stream ends it *)
      cbn [last join] in *.
      destruct token as [|x token]; [contradiction|].
      destruct fuel as [|[|fuel]]; [lia|cbn in Hfuel; lia|].
      cbn [string_explode_loop getline].
      rewrite (read_until_end delim (x :: token) Hnot). reflexivity.
    + change (join [delim] (token :: token' :: toks))
        with (token ++ [delim] ++ join [delim] (token' :: toks)) in *.
      cbn [app] in *.
      destruct fuel as [|fuel]; [lia|].
      cbn [string_explode_loop].
      assert (Hget : getline (token ++ delim :: join [delim] (token' :: toks))
                       delim =
                     Some (token, join [delim] (token' :: toks))).
      { unfold getline.
        rewrite <- (read_until_delim delim token _ Hnot).
        now destruct token. }
      rewrite Hget, IH; [now rewrite <- app_assoc|assumption|exact Hlast|].
      clear - Hfuel.
      set (j := join [delim] (token' :: toks)) in *.
      rewrite length_app in Hfuel. cbn [List.length] in Hfuel. lia.
Qed.

(** X11.  Exploding what [string_implode] made of tokens gives the tokens
    back, provided no token contains the delimiter and the last token is
    not empty (an empty last token leaves a delimiter at the end, which
    [string_explode] drops). *)
Theorem string_explode_implode toks delim fuel :
  Forall (fun token => ~ In delim token) toks ->
  last toks [delim] <> [] ->
  (List.length (string_implode toks [delim]) < fuel)%nat ->
  string_explode fuel (string_implode toks [delim]) delim = Some toks.
Proof.
  intros Hall Hlast Hfuel. rewrite string_implode_join in *.
  apply (string_explode_loop_join delim toks [] fuel Hall Hlast Hfuel).
Qed.

Lemma string_explode_tokens_witness :
  exists toks,
    string_explode 4 (lit "a,b") "," = Some toks /\
    string_implode toks [","%char] = lit "a,b".
Proof.
  destruct (string_explode_tokens (lit "a,b") ",")
    as (toks & Hrun & _ & _ & Hnoend).
  exists toks; split; [apply Hrun; cbn; lia|].
  apply Hnoend. intros s' H.
  apply (f_equal (fun l => last l "x"%char)) in H.
  rewrite last_last in H. discriminate H.
Defined.

Lemma string_explode_implode_witness :
  Forall (fun token => ~ In ","%char token) [lit "a"; lit ""; lit "b"] /\
  last [lit "a"; lit ""; lit "b"] [","%char] <> [] /\
  (List.length (string_implode [lit "a"; lit ""; lit "b"] [","%char]) < 5)%nat
  /\
  string_explode 5 (string_implode [lit "a"; lit ""; lit "b"] [","%char]) ","
  = Some [lit "a"; lit ""; lit "b"].
Proof.
  assert (Hall : Forall (fun token => ~ In ","%char token)
                   [lit "a"; lit ""; lit "b"]).
  { repeat constructor; cbn; intros H;
      repeat (destruct H as [H|H]; [discriminate H|]); exact H. }
  assert (Hlast : last [lit "a"; lit ""; lit "b"] [","%char] <> [])
    by discriminate.
  assert (Hfuel : (List.length
            (string_implode [lit "a"; lit ""; lit "b"] [","%char]) < 5)%nat)
    by (cbn; lia).
  split; [exact Hall|split; [exact Hlast|split; [exact Hfuel|]]].
  exact (string_explode_implode _ _ _ Hall Hlast Hfuel).
Defined.

End ExplodeFacts.

(* ================================================================== *)
(** * Properties of the trimming functions *)
(* ================================================================== *)

Section TrimFacts.

Import Str StrUtil.

Implicit Types (s l r t : std_string) (x : ascii).

Lemma string_ltrim_cons x s :
  string_ltrim (x :: s) = if isspace x then string_ltrim s else x :: s.
Proof.
  unfold string_ltrim, string_erase_range, not_isspace.
  cbn [find_if firstn app]. now destruct (isspace x).
Qed.

Lemma string_ltrim_nil : string_ltrim [] = [].
Proof. reflexivity. Qed.

(** [string_ltrim] removes a run of white space from the front. *)
Lemma string_ltrim_split s :
  exists l, s = l ++ string_ltrim s /\ Forall (fun x => isspace x = true) l.
Proof.
  induction s as [|x s (l & Hs & Hl)]; [exists []; split; auto|].
  rewrite string_ltrim_cons.
  destruct (isspace x) eqn:Hx.
  - exists (x :: l); split; [cbn [app]; congruence|now constructor].
  - exists []; split; auto.
Qed.

Lemma string_ltrim_head s x t :
  string_ltrim s = x :: t -> isspace x = false.
Proof.
  induction s as [|y s IH]; [discriminate|].
  rewrite string_ltrim_cons.
  destruct (isspace y) eqn:Hy; [exact IH|].
  now intros [= <- _].
Qed.

Lemma string_ltrim_fixed s :
  (forall x t, s = x :: t -> isspace x = false) -> string_ltrim s = s.
Proof.
  destruct s as [|x s]; intros H; [reflexivity|].
  now rewrite string_ltrim_cons, (H x s eq_refl).
Qed.

Lemma string_ltrim_snoc s x :
  string_ltrim (s ++ [x]) =
  match string_ltrim s with
  | [] => if isspace x then [] else [x]
  | y :: t => (y :: t) ++ [x]
  end.
Proof.
  induction s as [|y s IH].
  - cbn [app]. rewrite string_ltrim_cons. now destruct (isspace x).
  - cbn [app]. rewrite !string_ltrim_cons.
    destruct (isspace y); [exact IH|reflexivity].
Qed.

(** [string_rtrim] is [string_ltrim] seen from the other end. *)
Lemma string_rtrim_rev s : string_rtrim s = rev (string_ltrim (rev s)).
Proof.
  unfold string_rtrim, string_ltrim, string_erase_range.
  rewrite skipn_all, app_nil_r. cbn [firstn app].
  rewrite skipn_rev, rev_involutive. reflexivity.
Qed.

Lemma string_rtrim_cons x s :
  string_rtrim (x :: s) =
  match string_rtrim s with
  | [] => if isspace x then [] else [x]
  | y :: t => x :: y :: t
  end.
Proof.
  rewrite !string_rtrim_rev. cbn [rev].
  rewrite string_ltrim_snoc.
  destruct (string_ltrim (rev s)) as [|y t] eqn:E.
  - now destruct (isspace x).
  - rewrite rev_app_distr. cbn [rev app].
    destruct (rev t ++ [y]) eqn:E'; [destruct (rev t); discriminate|].
    reflexivity.
Qed.

Lemma string_rtrim_split s :
  exists r, s = string_rtrim s ++ r /\ Forall (fun x => isspace x = true) r.
Proof.
  destruct (string_ltrim_split (rev s)) as (l & Hs & Hl).
  exists (rev l); split.
  - rewrite string_rtrim_rev, <- rev_app_distr, <- Hs.
    now rewrite rev_involutive.
  - now apply Forall_rev.
Qed.

Lemma string_rtrim_last s t x :
  string_rtrim s = t ++ [x] -> isspace x = false.
Proof.
  rewrite string_rtrim_rev. intros H.
  apply (f_equal (@rev ascii)) in H.
  rewrite rev_involutive, rev_app_distr in H. cbn in H.
  exact (string_ltrim_head _ _ _ H).
Qed.

Lemma string_rtrim_fixed s :
  (forall t x, s = t ++ [x] -> isspace x = false) -> string_rtrim s = s.
Proof.
  intros H. rewrite string_rtrim_rev, string_ltrim_fixed.
  - apply rev_involutive.
  - intros x t Hrev. apply (H (rev t) x).
    rewrite <- (rev_involutive s), Hrev. reflexivity.
Qed.

(** Trimming the two ends in either order gives the same string. *)
Lemma string_ltrim_rtrim s :
  string_ltrim (string_rtrim s) = string_rtrim (string_ltrim s).
Proof.
  induction s as [|x s IH]; [reflexivity|].
  rewrite string_rtrim_cons, (string_ltrim_cons x s).
  destruct (isspace x) eqn:Hx.
  - destruct (string_rtrim s) as [|y t] eqn:E.
    + now rewrite <- IH.
    + now rewrite string_ltrim_cons, Hx.
  - rewrite string_rtrim_cons.
    destruct (string_rtrim s) as [|y t]; rewrite ?Hx;
      now rewrite string_ltrim_cons, Hx.
Qed.

(** X12.  [string_trim] removes white space from the two ends and nothing
    else: the string is a run of white space, the trimmed string, and a
    run of white space, and the trimmed string neither starts nor ends
    with a white-space character.  The parts in between are kept as they
    are. *)
Theorem string_trim_strips_both_ends s :
  exists l r,
    s = l ++ string_trim s ++ r /\
    Forall (fun x => isspace x = true) l /\
    Forall (fun x => isspace x = true) r /\
    (forall x t, string_trim s = x :: t -> isspace x = false) /\
    (forall t x, string_trim s = t ++ [x] -> isspace x = false).
Proof.
  destruct (string_ltrim_split s) as (l & Hs & Hl).
  destruct (string_rtrim_split (string_ltrim s)) as (r & Hs' & Hr).
  exists l, r; unfold string_trim; repeat split; try assumption.
  - now rewrite <- Hs', <- Hs.
  - intros x t H. rewrite <- string_ltrim_rtrim in H.
    exact (string_ltrim_head _ _ _ H).
  - intros t x H. exact (string_rtrim_last _ _ _ H).
Qed.

(** X13.  The order in which the two ends are trimmed does not matter, and
    trimming a trimmed string changes nothing; a string that neither
    starts nor ends with white space is left as it is. *)
Theorem string_trim_idempotent s :
  string_ltrim (string_rtrim s) = string_rtrim (string_ltrim s) /\
  string_trim (string_trim s) = string_trim s /\
  ((forall x t, s = x :: t -> isspace x = false) ->
   (forall t x, s = t ++ [x] -> isspace x = false) ->
   string_trim s = s).
Proof.
  split; [apply string_ltrim_rtrim|split].
  - unfold string_trim.
    rewrite (string_ltrim_fixed (string_rtrim (string_ltrim s))).
    + apply string_rtrim_fixed. intros t x H.
      exact (string_rtrim_last _ _ _ H).
    + intros x t H. rewrite <- string_ltrim_rtrim in H.
      exact (string_ltrim_head _ _ _ H).
  - intros Hhead Hlast. unfold string_trim.
    rewrite (string_ltrim_fixed s Hhead). now apply string_rtrim_fixed.
Qed.

(** X14.  [string_trim] returns the empty string exactly on the strings
    made of white space only (the empty string among them). *)
Theorem string_trim_empty_iff s :
  string_trim s = [] <-> Forall (fun x => isspace x = true) s.
Proof.
  split.
  - intros H. unfold string_trim in H.
    destruct (string_ltrim_split s) as (l & Hs & Hl).
    destruct (string_rtrim_split (string_ltrim s)) as (r & Hs' & Hr).
    rewrite H in Hs'; cbn [app] in Hs'. rewrite Hs' in Hs.
    rewrite Hs. apply Forall_app; split; assumption.
  - intros Hall. unfold string_trim.
    assert (Hl : string_ltrim s = []).
    { induction Hall as [|x s Hx _ IH]; [reflexivity|].
      now rewrite string_ltrim_cons, Hx. }
    now rewrite Hl.
Qed.

Lemma string_trim_strips_both_ends_witness :
  string_trim (lit "  a b ") = lit "a b" /\
  exists l r,
    lit "  a b " = l ++ string_trim (lit "  a b ") ++ r /\
    Forall (fun x => isspace x = true) l /\
    Forall (fun x => isspace x = true) r.
Proof.
  split; [reflexivity|].
  destruct (string_trim_strips_both_ends (lit "  a b "))
    as (l & r & Hs & Hl & Hr & _).
  exists l, r; auto.
Defined.

Lemma string_trim_idempotent_witness :
  (forall x t, lit "a b" = x :: t -> isspace x = false) /\
  (forall t x, lit "a b" = t ++ [x] -> isspace x = false) /\
  string_trim (lit "a b") = lit "a b".
Proof.
  assert (Hhead : forall x t, lit "a b" = x :: t -> isspace x = false).
  { intros x t H. injection H as <- _. reflexivity. }
  assert (Hlast : forall t x, lit "a b" = t ++ [x] -> isspace x = false).
  { intros t x H.
    apply (f_equal (fun l => last l " "%char)) in H.
    rewrite last_last in H. now subst x. }
  split; [exact Hhead|split; [exact Hlast|]].
  apply (proj2 (proj2 (string_trim_idempotent (lit "a b"))) Hhead Hlast).
Defined.

End TrimFacts.

(* ================================================================== *)
(** * Properties of [gen_random_str] *)
(* ================================================================== *)

Section RandomFacts.

Import Str StrUtil.

Lemma string_set_length (s : std_string) pos ch :
  (pos < List.length s)%nat ->
  List.length (string_set s pos ch) = List.length s.
Proof.
  intros H; unfold string_set.
  rewrite length_app, length_firstn; cbn [List.length].
  rewrite length_skipn. lia.
Qed.

Lemma string_set_nth_same (s : std_string) pos ch d :
  (pos < List.length s)%nat -> nth pos (string_set s pos ch) d = ch.
Proof.
  intros H; unfold string_set.
  rewrite app_nth2; rewrite length_firstn; [|lia].
  replace (pos - Nat.min pos (List.length s))%nat with O by lia.
  reflexivity.
Qed.

Lemma string_set_nth_other (s : std_string) pos ch k d :
  (pos < List.length s)%nat -> k <> pos ->
  nth k (string_set s pos ch) d = nth k s d.
Proof.
  intros H Hk; unfold string_set.
  rewrite <- (firstn_skipn pos s) at 3.
  destruct (Nat.lt_ge_cases k pos) as [Hlt|Hge].
  - rewrite !app_nth1 by (rewrite length_firstn; lia). reflexivity.
  - rewrite !app_nth2 by (rewrite length_firstn; lia).
    rewrite length_firstn.
    replace (Nat.min pos (List.length s)) with pos by lia.
    destruct (k - pos)%nat as [|m] eqn:E; [lia|].
    cbn [nth].
    destruct (skipn pos s) as [|y tl] eqn:Es.
    + apply (f_equal (@List.length ascii)) in Es.
      rewrite length_skipn in Es; cbn in Es; lia.
    + cbn [nth].
      replace (S pos) with (1 + pos)%nat by lia.
      rewrite <- skipn_skipn, Es. reflexivity.
Qed.

(** The character the [k]-th round of the loop writes. *)
Lemma gen_random_str_loop_spec rand : forall n i (str : std_string),
  (i + n <= List.length str)%nat ->
  List.length (gen_random_str_loop rand n i str) = List.length str /\
  forall k d,
    nth k (gen_random_str_loop rand n i str) d =
    if ((i <=? k) && (k <? i + n))%nat
    then nth (Z.to_nat (rand k mod Z.of_nat (List.length s_chars)))
             s_chars NUL
    else nth k str d.
Proof.
  induction n as [|n IH]; intros i str Hlen.
  - split; [reflexivity|]. intros k d; cbn [gen_random_str_loop].
    destruct (Nat.leb_spec i k); destruct (Nat.ltb_spec k (i + 0));
      cbn [andb]; (reflexivity || lia).
  - cbn [gen_random_str_loop].
    set (ch := nth _ s_chars NUL).
    destruct (IH (S i) (string_set str i ch)) as [Hl Hn].
    { rewrite string_set_length; lia. }
    split; [rewrite Hl; apply string_set_length; lia|].
    intros k d. rewrite Hn.
    destruct (Nat.eq_dec k i) as [->|Hne].
    + replace (S i <=? i)%nat with false
        by (symmetry; apply Nat.leb_gt; lia).
      replace (i <=? i)%nat with true by (symmetry; apply Nat.leb_le; lia).
      replace (i <? i + S n)%nat with true
        by (symmetry; apply Nat.ltb_lt; lia).
      cbn [andb]. apply string_set_nth_same; lia.
    + rewrite (string_set_nth_other str i ch k d) by lia.
      destruct (Nat.leb_spec (S i) k); destruct (Nat.ltb_spec k (S i + n));
        destruct (Nat.leb_spec i k); destruct (Nat.ltb_spec k (i + S n));
        cbn [andb]; try lia; reflexivity.
Qed.

(** X15.  [gen_random_str( len )] returns a string of [len + 1] characters,
    not [len]: the terminator written at index [len] is part of it.  The
    [i]-th of the first [len] characters is the one of [s_chars] that the
    [i]-th [rand()] selects, so never a NUL. *)
Theorem gen_random_str_shape (rand : nat -> Z) (len : nat) :
  (forall i, 0 <= rand i) ->
  List.length (gen_random_str rand len) = (len + 1)%nat /\
  nth len (gen_random_str rand len) "x"%char = NUL /\
  forall i, (i < len)%nat ->
    nth i (gen_random_str rand len) NUL =
      nth (Z.to_nat (rand i mod 65)) s_chars NUL /\
    In (nth i (gen_random_str rand len) NUL) s_chars /\
    nth i (gen_random_str rand len) NUL <> NUL.
Proof.
  intros Hrand. unfold gen_random_str.
  assert (Hres : List.length (resize [] (len + 1)) = (len + 1)%nat).
  { unfold resize. rewrite firstn_nil, length_app, repeat_length.
    cbn; lia. }
  destruct (gen_random_str_loop_spec rand len O (resize [] (len + 1)))
    as [Hl Hn]; [lia|].
  split; [|split].
  - rewrite string_set_length; lia.
  - apply string_set_nth_same; lia.
  - intros i Hi.
    assert (Hnth : nth i (string_set
                     (gen_random_str_loop rand len O (resize [] (len + 1)))
                     len NUL) NUL =
                   nth (Z.to_nat (rand i mod 65)) s_chars NUL).
    { rewrite string_set_nth_other by lia. rewrite Hn.
      destruct (Nat.leb_spec O i); destruct (Nat.ltb_spec i (0 + len));
        cbn [andb]; try lia. reflexivity. }
    assert (Hidx : (Z.to_nat (rand i mod 65) < List.length s_chars)%nat).
    { pose proof (Z.mod_pos_bound (rand i) 65 ltac:(lia)).
      change (List.length s_chars) with 65%nat. lia. }
    rewrite Hnth. split; [reflexivity|split].
    + now apply nth_In.
    + intros E.
      assert (Hin : In NUL s_chars) by (rewrite <- E; now apply nth_In).
      clear - Hin. cbn in Hin.
      repeat (destruct Hin as [Hin|Hin]; [discriminate Hin|]). exact Hin.
Qed.

Lemma gen_random_str_shape_witness :
  (forall i, 0 <= (fun k => Z.of_nat k * 7 + 3) i) /\
  List.length (gen_random_str (fun k => Z.of_nat k * 7 + 3) 5) = 6%nat /\
  nth 5 (gen_random_str (fun k => Z.of_nat k * 7 + 3) 5) "x"%char = NUL.
Proof.
  assert (H : forall i, 0 <= (fun k => Z.of_nat k * 7 + 3) i)
    by (intros i; cbn beta; lia).
  split; [exact H|].
  destruct (gen_random_str_shape (fun k => Z.of_nat k * 7 + 3) 5 H)
    as (Hl & Hn & _).
  split; [exact Hl|exact Hn].
Defined.

End RandomFacts.

(* ================================================================== *)
(** * Properties of [comp_str_create_val] *)
(* ================================================================== *)

Section CompIndexFacts.

Import Str Comp CompIndex.

(** Decoding an index below 72. *)
Lemma comp_val_to_abc_small val :
  0 <= val <= 71 ->
  exists a b c,
    comp_val_to_abc val = (true, (a, b, c)) /\
    1 <= a <= 2 /\ 0 <= b <= 3 /\ 0 <= c <= 8 /\
    comp_abc_to_val a b c = val.
Proof.
  intros Hval.
  exists (val / 36 + 1), ((val / 9) mod 4), (val mod 9).
  assert (Hq : 0 <= val / 36 <= 1).
  { split; [apply Z.div_pos; lia|].
    apply Z.lt_succ_r, Z.div_lt_upper_bound; lia. }
  assert (Hb : 0 <= (val / 9) mod 4 < 4) by (apply Z.mod_pos_bound; lia).
  assert (Hc : 0 <= val mod 9 < 9) by (apply Z.mod_pos_bound; lia).
  assert (E : val / 36 * 36 + (val / 9) mod 4 * 9 + val mod 9 = val).
  { assert (H94 : val / 9 / 4 = val / (9 * 4)) by (apply Z.div_div; lia).
    change (9 * 4) with 36 in H94.
    pose proof (Z.div_mod (val / 9) 4 ltac:(lia)) as E4.
    pose proof (Z.div_mod val 9 ltac:(lia)) as E9.
    lia. }
  unfold comp_val_to_abc, comp_abc_to_val, add32, sub32, mul32, to_uint32.
  rewrite pow_2_32.
  generalize dependent (val / 36); intros q Hq.
  generalize dependent ((val / 9) mod 4); intros b Hb.
  generalize dependent (val mod 9); intros c Hc E.
  rewrite (Z.mod_small (q + 1)) by lia.
  replace (q + 1 <=? 2) with true by (symmetry; apply Z.leb_le; lia).
  repeat (split; [reflexivity || lia|]).
  replace (q + 1 - 1) with q by lia.
  rewrite (Z.mod_small q) by lia.
  rewrite (Z.mod_small (q * 36)) by lia.
  rewrite (Z.mod_small (b * 9)) by lia.
  rewrite (Z.mod_small (q * 36 + b * 9)) by lia.
  rewrite Z.mod_small by lia.
  exact E.
Qed.

Lemma comp_val_to_abc_large val :
  72 <= val < 2 ^ 32 -> fst (comp_val_to_abc val) = false.
Proof.
  intros Hval; rewrite pow_2_32 in Hval.
  unfold comp_val_to_abc, add32, to_uint32; rewrite pow_2_32; cbn [fst].
  assert (Hq : 2 <= val / 36 < 4294967295).
  { split; [apply Z.div_le_lower_bound; lia|].
    apply Z.div_lt_upper_bound; lia. }
  rewrite Z.mod_small by lia.
  apply Z.leb_gt; lia.
Qed.

(** X16.  For an index below 72, [comp_str_create_val] returns a string
    that [comp_str_parse] accepts and whose components encode the index
    again, so different indices get different strings.  For any other
    32-bit index it returns the empty string, which [comp_str_parse]
    rejects without touching its output parameters. *)
Theorem comp_str_create_val_roundtrip :
  (forall fuel val, (2 <= fuel)%nat -> 0 <= val <= 71 ->
     exists str a b c,
       comp_str_create_val fuel val = Some str /\
       (forall a0 b0 c0,
          comp_str_parse str a0 b0 c0 = Some (true, (a, b, c))) /\
       comp_abc_to_val a b c = val) /\
  (forall fuel val1 val2 str,
     (2 <= fuel)%nat -> 0 <= val1 <= 71 -> 0 <= val2 <= 71 ->
     comp_str_create_val fuel val1 = Some str ->
     comp_str_create_val fuel val2 = Some str -> val1 = val2) /\
  (forall fuel val, 72 <= val < 2 ^ 32 ->
     comp_str_create_val fuel val = Some [] /\
     forall a0 b0 c0,
       comp_str_parse [] a0 b0 c0 = Some (false, (a0, b0, c0))).
Proof.
  assert (Hround : forall fuel val, (2 <= fuel)%nat -> 0 <= val <= 71 ->
     exists str a b c,
       comp_str_create_val fuel val = Some str /\
       (forall a0 b0 c0,
          comp_str_parse str a0 b0 c0 = Some (true, (a, b, c))) /\
       comp_abc_to_val a b c = val).
  { intros fuel val Hfuel Hval.
    destruct (comp_val_to_abc_small val Hval)
      as (a & b & c & Hdec & Ha & Hb & Hc & Henc).
    exists (comp_text a b c), a, b, c; split; [|split; [|exact Henc]].
    - unfold comp_str_create_val; rewrite Hdec.
      apply comp_str_create_abc_digits; (assumption || lia).
    - intros a0 b0 c0.
      rewrite <- (app_nil_r (comp_text a b c)).
      now apply comp_str_parse_accepts. }
  split; [exact Hround|split].
  - intros fuel val1 val2 str Hfuel H1 H2 E1 E2.
    destruct (Hround fuel val1 Hfuel H1)
      as (s1 & a1 & b1 & c1 & Hs1 & Hp1 & Hv1).
    destruct (Hround fuel val2 Hfuel H2)
      as (s2 & a2 & b2 & c2 & Hs2 & Hp2 & Hv2).
    assert (s1 = str) by congruence. assert (s2 = str) by congruence.
    subst s1 s2.
    pose proof (Hp1 0 0 0) as P1. rewrite (Hp2 0 0 0) in P1.
    injection P1 as -> -> ->. congruence.
  - intros fuel val Hval.
    pose proof (comp_val_to_abc_large val Hval) as Hdec.
    unfold comp_str_create_val.
    destruct (comp_val_to_abc val) as [[|] [[a b] c]];
      [discriminate Hdec|]. split; reflexivity.
Qed.

Lemma comp_str_create_val_roundtrip_witness :
  ((2 <= 2)%nat /\ 0 <= 40 <= 71 /\
   exists str a b c,
     comp_str_create_val 2 40 = Some str /\
     (forall a0 b0 c0,
        comp_str_parse str a0 b0 c0 = Some (true, (a, b, c))) /\
     comp_abc_to_val a b c = 40) /\
  (72 <= 72 < 2 ^ 32 /\ comp_str_create_val 2 72 = Some []).
Proof.
  pose proof comp_str_create_val_roundtrip as (Hround & _ & Hlarge).
  split.
  - split; [lia|split; [lia|]]. apply (Hround 2%nat 40); lia.
  - assert (H : 72 <= 72 < 2 ^ 32) by (rewrite pow_2_32; lia).
    split; [exact H|]. apply (proj1 (Hlarge 2%nat 72 H)).
Defined.

End CompIndexFacts.

(* ================================================================== *)
(** * Properties of the colour table *)
(* ================================================================== *)

Section ColFacts.

Import Col.

Implicit Types (g : colortable) (d : colordata) (col : nat).

(** Bits below [n] and bits from [n] on do not meet. *)
Lemma lor_low_high lo hi n :
  0 <= n -> 0 <= lo < 2 ^ n ->
  Z.lor lo (Z.shiftl hi n) = lo + hi * 2 ^ n.
Proof.
  intros Hn Hlo.
  assert (Hdisj : Z.land lo (Z.shiftl hi n) = 0).
  { apply Z.bits_inj'; intros k Hk.
    rewrite Z.land_spec, Z.bits_0.
    destruct (Z.lt_ge_cases k n) as [Hlt|Hge].
    - rewrite (Z.shiftl_spec_low hi n k Hlt). apply andb_false_r.
    - rewrite <- (Z.mod_small lo (2 ^ n)) by assumption.
      rewrite Z.mod_pow2_bits_high by lia. reflexivity. }
  rewrite <- Z.lxor_lor by assumption.
  rewrite <- Z.add_nocarry_lxor by assumption.
  now rewrite Z.shiftl_mul_pow2.
Qed.

(** The value [col_get] builds for an alpha of at most 255. *)
Lemma col_get_alpha_value c alpha :
  0 <= c < 2 ^ 32 -> 0 <= alpha <= 255 ->
  Z.lor (Z.land c (lnot32 IM_COL32_A_MASK)) (shl32 alpha IM_COL32_A_SHIFT) =
  c mod 2 ^ 24 + alpha * 2 ^ 24.
Proof.
  intros Hc Ha.
  change (lnot32 IM_COL32_A_MASK) with (Z.ones 24).
  rewrite Z.land_ones by lia.
  unfold shl32, to_ImU32, IM_COL32_A_SHIFT.
  rewrite Z.shiftl_mul_pow2 by lia.
  rewrite (Z.mod_small (alpha * 2 ^ 24)) by lia.
  rewrite <- (Z.shiftl_mul_pow2 alpha 24) at 1 by lia.
  apply lor_low_high; [lia|]. apply Z.mod_pos_bound; lia.
Qed.

(** X17.  With an alpha of at most 255, [col_get] returns the stored colour
    with its alpha byte replaced by [alpha] and its other three bytes
    kept; with a larger alpha it returns the stored colour as it is. *)
Theorem col_get_replaces_alpha g col d alpha :
  nth_error g col = Some d ->
  0 <= color d < 2 ^ 32 -> 0 <= alpha < 2 ^ 32 ->
  (alpha <= 255 ->
     exists v,
       col_get g col alpha = Some v /\
       0 <= v < 2 ^ 32 /\
       Z.shiftr v 24 = alpha /\
       Z.land v 0xFFFFFF = Z.land (color d) 0xFFFFFF) /\
  (255 < alpha -> col_get g col alpha = Some (color d)).
Proof.
  intros Hd Hc Ha; split.
  - intros Hsmall.
    exists (color d mod 2 ^ 24 + alpha * 2 ^ 24).
    pose proof (Z.mod_pos_bound (color d) (2 ^ 24) ltac:(lia)) as Hlo.
    split; [|split; [|split]].
    + unfold col_get; rewrite Hd.
      replace (alpha <=? 255) with true by (symmetry; apply Z.leb_le; lia).
      now rewrite col_get_alpha_value by lia.
    + change (2 ^ 32) with (256 * 2 ^ 24). lia.
    + rewrite Z.shiftr_div_pow2 by lia.
      rewrite Z.div_add by lia. rewrite Z.div_small by lia. lia.
    + change 0xFFFFFF with (Z.ones 24).
      rewrite !Z.land_ones by lia.
      rewrite Z.mod_add by lia. now rewrite Z.mod_mod by lia.
  - intros Hbig. unfold col_get; rewrite Hd.
    replace (alpha <=? 255) with false by (symmetry; apply Z.leb_gt; lia).
    reflexivity.
Qed.

Lemma col_get_replaces_alpha_witness :
  let g := [mkColordata "col_Bright" 0xff112233 false] in
  nth_error g 0 = Some (mkColordata "col_Bright" 0xff112233 false) /\
  0 <= 0xff112233 < 2 ^ 32 /\ 0 <= 0x80 < 2 ^ 32 /\ 0x80 <= 255 /\
  exists v,
    col_get g 0 0x80 = Some v /\
    0 <= v < 2 ^ 32 /\
    Z.shiftr v 24 = 0x80 /\
    Z.land v 0xFFFFFF = Z.land 0xff112233 0xFFFFFF.
Proof.
  intros g.
  assert (Hd : nth_error g 0 =
               Some (mkColordata "col_Bright" 0xff112233 false))
    by reflexivity.
  assert (Hc : 0 <= 0xff112233 < 2 ^ 32) by (change (2 ^ 32) with 4294967296; lia).
  assert (Ha : 0 <= 0x80 < 2 ^ 32) by (change (2 ^ 32) with 4294967296; lia).
  split; [exact Hd|split; [exact Hc|split; [exact Ha|split; [lia|]]]].
  apply (proj1 (col_get_replaces_alpha g 0 _ 0x80 Hd Hc Ha)). lia.
Defined.

Lemma table_set_nth_same g : forall col d d',
  nth_error g col = Some d -> nth_error (table_set g col d') col = Some d'.
Proof.
  induction g as [|x g IH]; intros [|col] d d' H; try discriminate.
  - reflexivity.
  - cbn in *. now apply IH with d.
Qed.

Lemma table_set_nth_other g : forall col col' d',
  col' <> col -> nth_error (table_set g col d') col' = nth_error g col'.
Proof.
  induction g as [|x g IH]; intros [|col] [|col'] d' H;
    try reflexivity; try contradiction.
  cbn. apply IH. lia.
Qed.

Lemma table_set_names g : forall col d d',
  nth_error g col = Some d -> name d' = name d ->
  map name (table_set g col d') = map name g.
Proof.
  induction g as [|x g IH]; intros [|col] d d' H Hn; try discriminate.
  - cbn in *. injection H as ->. now rewrite Hn.
  - cbn in *. f_equal. now apply IH with d.
Qed.

Lemma table_set_length g : forall col d,
  List.length (table_set g col d) = List.length g.
Proof.
  induction g as [|x g IH]; intros [|col] d; try reflexivity.
  cbn. now rewrite IH.
Qed.

(** X18.  [col_set] changes one entry of the table and nothing else: the
    table keeps its size, every other entry stays what it was, its
    modified flag included, and the entry set keeps its name, holds the
    new colour, and is marked modified when the colour changed and keeps
    its flag when it did not.  So [col_get] with an alpha above 255
    returns the colour set, [col_get] of other entries and all the names
    are as before, and setting the colour an entry already has changes
    nothing at all.  An index outside the table is an access outside the
    array. *)
Theorem col_set_then_get g col d c :
  nth_error g col = Some d ->
  exists g',
    col_set g col c = Some g' /\
    List.length g' = List.length g /\
    nth_error g' col =
      Some (mkColordata (name d) c (modified d || negb (color d =? c))) /\
    (forall col', col' <> col -> nth_error g' col' = nth_error g col') /\
    (forall alpha, 255 < alpha -> col_get g' col alpha = Some c) /\
    (forall col' alpha, col' <> col ->
       col_get g' col' alpha = col_get g col' alpha) /\
    (forall col', col_get_name g' col' = col_get_name g col') /\
    (exists d', nth_error g' col = Some d' /\
       modified d' = modified d || negb (color d =? c)) /\
    (color d = c -> g' = g).
Proof.
  intros Hd. unfold col_set; rewrite Hd.
  destruct (Z.eqb_spec (color d) c) as [Hsame|Hdiff]; cbn [negb].
  - exists g; repeat split; auto.
    + rewrite Hd, <- Hsame, orb_false_r. now destruct d.
    + intros alpha Ha. unfold col_get; rewrite Hd.
      replace (alpha <=? 255) with false by (symmetry; apply Z.leb_gt; lia).
      now rewrite Hsame.
    + exists d; split; [exact Hd|]. now rewrite orb_false_r.
  - set (d' := mkColordata (name d) c true).
    exists (table_set g col d'); repeat split.
    + apply table_set_length.
    + rewrite (table_set_nth_same g col d d' Hd).
      now rewrite orb_true_r.
    + intros col' Hne. now apply table_set_nth_other.
    + intros alpha Ha. unfold col_get.
      rewrite (table_set_nth_same g col d d' Hd).
      replace (alpha <=? 255) with false by (symmetry; apply Z.leb_gt; lia).
      reflexivity.
    + intros col' alpha Hne. unfold col_get.
      now rewrite table_set_nth_other.
    + intros col'. unfold col_get_name.
      destruct (Nat.eq_dec col' col) as [->|Hne].
      * now rewrite (table_set_nth_same g col d d' Hd), Hd.
      * now rewrite table_set_nth_other.
    + exists d'; split; [apply (table_set_nth_same g col d d' Hd)|].
      cbn. now rewrite orb_true_r.
    + intros E; contradiction.
Qed.

Lemma col_set_then_get_witness :
  let g := [mkColordata "col_A" 1 false; mkColordata "col_B" 2 false] in
  nth_error g 1 = Some (mkColordata "col_B" 2 false) /\
  exists g',
    col_set g 1 7 = Some g' /\
    nth_error g' 1 = Some (mkColordata "col_B" 7 true) /\
    nth_error g' 0 = Some (mkColordata "col_A" 1 false) /\
    (forall alpha, 255 < alpha -> col_get g' 1 alpha = Some 7).
Proof.
  intros g.
  assert (Hd : nth_error g 1 = Some (mkColordata "col_B" 2 false))
    by reflexivity.
  split; [exact Hd|].
  destruct (col_set_then_get g 1 _ 7 Hd)
    as (g' & Hset & _ & Hnew & Hother & Hget & _).
  exists g'; split; [exact Hset|split; [exact Hnew|split; [|exact Hget]]].
  now rewrite Hother by discriminate.
Defined.

End ColFacts.

(* ================================================================== *)
(** * Saving and loading the colour table *)
(* ================================================================== *)

Section ColIniFacts.

Import Col.

(** What is asked of the file: a value put under a key is the value got
    under that key, and the values under other keys are left alone. *)
Variable CIniFile : Type.
Variable GetUint64 : CIniFile -> string -> Z -> string -> Z.
Variable PutUint64 : CIniFile -> string -> Z -> string -> CIniFile.

Hypothesis get_put_same : forall f key value defval section,
  GetUint64 (PutUint64 f key value section) key defval section = value.

Hypothesis get_put_other : forall f key key' value defval section,
  key' <> key ->
  GetUint64 (PutUint64 f key value section) key' defval section =
  GetUint64 f key' defval section.

Implicit Types (g : colortable) (d : colordata) (f : CIniFile).

Lemma col_shutdown_cons d g f :
  col_shutdown CIniFile PutUint64 (d :: g) f =
  col_shutdown CIniFile PutUint64 g
    (if modified d then PutUint64 f (name d) (color d) graph_colors else f).
Proof. reflexivity. Qed.

(** [col_shutdown] leaves a key alone that names no modified entry. *)
Lemma col_shutdown_other_key key defval : forall g f,
  (forall d, In d g -> modified d = true -> name d <> key) ->
  GetUint64 (col_shutdown CIniFile PutUint64 g f) key defval graph_colors =
  GetUint64 f key defval graph_colors.
Proof.
  induction g as [|x g IH]; intros f Hkey; [reflexivity|].
  rewrite col_shutdown_cons, IH.
  - destruct (modified x) eqn:Hx; [|reflexivity].
    apply get_put_other. intros E.
    apply (Hkey x (or_introl eq_refl) Hx). now symmetry.
  - intros d Hd. apply Hkey. now right.
Qed.

(** [col_shutdown] puts the colour of a modified entry under its name. *)
Lemma col_shutdown_modified defval : forall g f d,
  NoDup (map name g) -> In d g -> modified d = true ->
  GetUint64 (col_shutdown CIniFile PutUint64 g f) (name d) defval
    graph_colors = color d.
Proof.
  induction g as [|x g IH]; intros f d Hnodup Hin Hmod; [contradiction|].
  cbn [map] in Hnodup. inversion Hnodup as [|? ? Hfresh Hnodup']; subst.
  rewrite col_shutdown_cons.
  destruct Hin as [->|Hin].
  - rewrite Hmod, col_shutdown_other_key; [apply get_put_same|].
    intros d' Hd' _ E. apply Hfresh. rewrite <- E. now apply in_map.
  - now apply IH.
Qed.

(** X19.  What [col_shutdown] saves, [col_init] loads: started on a table
    with the same names, after loading every entry that was modified has
    the colour it had when saved.  Under the names of the entries that
    were not modified the file is as it was.  The file is any one that
    returns under a key the value last put there; no stored colour can be
    taken for the marker of a missing key, which is not a 32-bit value. *)
Theorem col_shutdown_init_roundtrip g g0 f i d :
  NoDup (map name g) ->
  (forall d', In d' g -> 0 <= color d' < 2 ^ 32) ->
  map name g0 = map name g ->
  nth_error g i = Some d ->
  (modified d = true ->
     exists d0,
       nth_error (col_init CIniFile GetUint64 g0
                    (col_shutdown CIniFile PutUint64 g f)) i = Some d0 /\
       name d0 = name d /\ color d0 = color d) /\
  (modified d = false ->
     forall defval,
       GetUint64 (col_shutdown CIniFile PutUint64 g f) (name d) defval
         graph_colors =
       GetUint64 f (name d) defval graph_colors).
Proof.
  intros Hnodup Hrange Hnames Hd.
  assert (Hin : In d g) by (eapply nth_error_In; eassumption).
  split.
  - intros Hmod.
    assert (Hname : nth_error (map name g0) i = Some (name d)).
    { rewrite Hnames. now apply map_nth_error. }
    destruct (nth_error g0 i) as [e|] eqn:He.
    2: { rewrite nth_error_map, He in Hname. discriminate. }
    rewrite nth_error_map, He in Hname. injection Hname as Hname.
    unfold col_init. rewrite nth_error_map, He. cbn [option_map].
    rewrite Hname, (col_shutdown_modified UINT64_MAX g f d Hnodup Hin Hmod).
    pose proof (Hrange d Hin) as Hc.
    replace (color d =? UINT64_MAX) with false.
    2: { symmetry; apply Z.eqb_neq. unfold UINT64_MAX.
         change (2 ^ 64) with (2 ^ 32 * 2 ^ 32). 
         assert (0 < 2 ^ 32) by (change (2 ^ 32) with 4294967296; lia).
         nia. }
    cbn [negb]. eexists; split; [reflexivity|]. cbn.
    split; [reflexivity|]. unfold to_ImU32. now apply Z.mod_small.
  - intros Hmod defval. apply col_shutdown_other_key.
    intros d' Hd' Hmod' E.
    assert (d' = d); [|congruence].
    clear - Hnodup Hin Hd' E.
    induction g as [|x g IH]; [contradiction|].
    cbn [map] in Hnodup. inversion Hnodup as [|? ? Hfresh Hnodup']; subst.
    destruct Hin as [->|Hin], Hd' as [->|Hd']; auto.
    + exfalso; apply Hfresh. rewrite <- E. now apply in_map.
    + exfalso; apply Hfresh. rewrite E. now apply in_map.
Qed.

End ColIniFacts.

Section ColIniWitness.

Import Col.
Local Open Scope string_scope.
Local Open Scope list_scope.

Lemma memory_get_put_same : forall f key value defval section,
  memory_get (memory_put f key value section) key defval section = value.
Proof.
  intros. unfold memory_get, memory_put. cbn [find fst snd].
  now rewrite !String.eqb_refl.
Qed.

Lemma memory_get_put_other : forall f key key' value defval section,
  key' <> key ->
  memory_get (memory_put f key value section) key' defval section =
  memory_get f key' defval section.
Proof.
  intros f key key' value defval section Hne.
  unfold memory_get, memory_put. cbn [find fst snd].
  apply not_eq_sym in Hne. apply String.eqb_neq in Hne.
  now rewrite Hne, andb_false_r.
Qed.

Lemma col_shutdown_init_roundtrip_witness :
  let g := [mkColordata "col_A" 7 true; mkColordata "col_B" 2 false] in
  let g0 := [mkColordata "col_A" 1 false; mkColordata "col_B" 2 false] in
  NoDup (map name g) /\
  (forall d', In d' g -> 0 <= color d' < 2 ^ 32) /\
  map name g0 = map name g /\
  nth_error g 0 = Some (mkColordata "col_A" 7 true) /\
  exists d0,
    nth_error (col_init memory_ini memory_get g0
                 (col_shutdown memory_ini memory_put g [])) 0 = Some d0 /\
    name d0 = "col_A" /\ color d0 = 7.
Proof.
  intros g g0.
  assert (Hnodup : NoDup (map name g)).
  { repeat constructor; cbn; intros H;
      repeat (destruct H as [H|H]; [discriminate H|]); exact H. }
  assert (Hrange : forall d', In d' g -> 0 <= color d' < 2 ^ 32).
  { change (2 ^ 32) with 4294967296.
    intros d' [<-|[<-|[]]]; cbn; lia. }
  assert (Hnames : map name g0 = map name g) by reflexivity.
  assert (Hd : nth_error g 0 = Some (mkColordata "col_A" 7 true))
    by reflexivity.
  split; [exact Hnodup|split; [exact Hrange|split; [exact Hnames|]]].
  split; [exact Hd|].
  apply (proj1 (col_shutdown_init_roundtrip memory_ini memory_get memory_put
                  memory_get_put_same memory_get_put_other
                  g g0 [] 0%nat _ Hnodup Hrange Hnames Hd)).
  reflexivity.
Defined.

End ColIniWitness.

(* ================================================================== *)
(** * Properties of the coloured text and the tooltip *)
(* ================================================================== *)

Section GuiFacts.

Import Str Gui.

Variable ImVec4 : Type.
Variable vec4_of_rgba : ascii -> ascii -> ascii -> ascii -> ImVec4.

Implicit Types (mem pending text : std_string)
  (calls : list (imgui_call ImVec4)).

Lemma style_depth_flush pending calls depth :
  style_depth depth (flush_text pending ++ calls) = style_depth depth calls.
Proof. destruct pending; reflexivity. Qed.

Lemma font_depth_flush pending calls depth :
  font_depth depth (flush_text pending ++ calls) = font_depth depth calls.
Proof. destruct pending; reflexivity. Qed.

Lemma drawn_text_flush pending calls :
  concat (drawn_text (flush_text pending ++ calls)) =
  pending ++ concat (drawn_text calls).
Proof. destruct pending; reflexivity. Qed.

(** Induction on the memory left, as the loop consumes it: one character
    or an escape and four bytes at a time. *)
Lemma multicolored_ind (P : std_string -> Prop) :
  P [] ->
  (forall ch mem, P mem ->
     (forall r g b a mem'', mem = r :: g :: b :: a :: mem'' -> P mem'') ->
     P (ch :: mem)) ->
  forall mem, P mem.
Proof.
  intros Hnil Hcons mem.
  assert (H : forall n mem, (List.length mem <= n)%nat -> P mem).
  { induction n as [|n IH]; intros [|ch m] Hlen; auto.
    - cbn in Hlen; lia.
    - apply Hcons.
      + apply IH; cbn in Hlen; lia.
      + intros r g b a mem'' ->. apply IH; cbn in Hlen; lia. }
  apply (H (List.length mem)); lia.
Qed.

(** The loop keeps the number of pushed colours, above the one it always
    has, and touches no font. *)
Lemma multicolored_loop_depth : forall mem pending calls depth,
  multicolored_loop vec4_of_rgba mem pending = Some calls ->
  style_depth (S depth) calls = Some (S depth) /\
  font_depth depth calls = Some depth /\
  concat (drawn_text calls) = pending ++ visible_text mem.
Proof.
  induction mem as [|ch mem IH IH4] using multicolored_ind;
    intros pending calls depth H; [discriminate|].
  cbn [multicolored_loop visible_text] in *.
  destruct (Ascii.eqb ch NUL).
  { injection H as <-.
    rewrite <- (app_nil_r (flush_text pending)).
    rewrite style_depth_flush, font_depth_flush, drawn_text_flush.
    repeat split. }
  destruct (Ascii.eqb ch LF).
  { destruct (multicolored_loop vec4_of_rgba mem []) as [calls'|] eqn:E; [|discriminate].
    injection H as <-.
    rewrite style_depth_flush, font_depth_flush, drawn_text_flush.
    destruct (IH [] calls' depth E) as (Hs & Hf & Ht).
    cbn [style_depth font_depth drawn_text]. now rewrite Ht. }
  destruct (Ascii.eqb ch ESC).
  { destruct mem as [|r [|g [|b [|a mem'']]]]; try discriminate.
    destruct (multicolored_loop vec4_of_rgba mem'' []) as [calls'|] eqn:E; [|discriminate].
    injection H as <-.
    rewrite style_depth_flush, font_depth_flush, drawn_text_flush.
    destruct (IH4 r g b a mem'' eq_refl [] calls' depth E) as (Hs & Hf & Ht).
    cbn [style_depth font_depth drawn_text Nat.leb Nat.sub].
    rewrite Nat.sub_0_r. now rewrite Ht. }
  destruct (IH (pending ++ [ch]) calls depth H) as (Hs & Hf & Ht).
  repeat split; try assumption.
  rewrite Ht. now rewrite <- app_assoc.
Qed.

Lemma style_depth_app calls1 : forall calls2 depth depth',
  style_depth depth calls1 = Some depth' ->
  style_depth depth (calls1 ++ calls2) = style_depth depth' calls2.
Proof.
  induction calls1 as [|c calls1 IH]; intros calls2 depth depth' H.
  - now injection H as <-.
  - destruct c; cbn [app style_depth] in *; try (now apply IH).
    destruct (count <=? depth)%nat; [now apply IH|discriminate].
Qed.

Lemma font_depth_app calls1 : forall calls2 depth depth',
  font_depth depth calls1 = Some depth' ->
  font_depth depth (calls1 ++ calls2) = font_depth depth' calls2.
Proof.
  induction calls1 as [|c calls1 IH]; intros calls2 depth depth' H.
  - now injection H as <-.
  - destruct c; cbn [app font_depth] in *; try (now apply IH).
    destruct depth; [discriminate|now apply IH].
Qed.

Lemma drawn_text_app calls1 calls2 :
  drawn_text (calls1 ++ calls2) = drawn_text calls1 ++ drawn_text calls2.
Proof.
  induction calls1 as [|c calls1 IH]; [reflexivity|].
  destruct c; cbn [app drawn_text]; now rewrite ?IH.
Qed.

Lemma multicolored_text_depth mem (color0 : ImVec4) calls depth :
  imgui_multicolored_text vec4_of_rgba mem color0 = Some calls ->
  style_depth depth calls = Some depth /\
  font_depth depth calls = Some depth /\
  concat (drawn_text calls) = visible_text mem.
Proof.
  unfold imgui_multicolored_text.
  destruct (multicolored_loop vec4_of_rgba mem []) as [calls'|] eqn:E; [|discriminate].
  intros [= <-].
  destruct (multicolored_loop_depth mem [] calls' depth E) as (Hs & Hf & Ht).
  cbn [style_depth font_depth drawn_text].
  rewrite (style_depth_app _ _ _ _ Hs), (font_depth_app _ _ _ _ Hf).
  rewrite drawn_text_app, concat_app, Ht.
  cbn. rewrite Nat.sub_0_r, app_nil_r. repeat split.
Qed.

(** X20.  Whenever [imgui_multicolored_text] returns, it has popped every
    colour it pushed and none besides, whatever escapes the text holds,
    and it has drawn, in order, exactly the characters before the
    terminator that are neither line feeds nor part of an escape. *)
Theorem imgui_multicolored_text_balanced mem (color0 : ImVec4) calls :
  imgui_multicolored_text vec4_of_rgba mem color0 = Some calls ->
  (forall depth, style_depth depth calls = Some depth) /\
  concat (drawn_text calls) = visible_text mem.
Proof.
  intros H; split.
  - intros depth. apply (multicolored_text_depth mem color0 calls depth H).
  - apply (multicolored_text_depth mem color0 calls O H).
Qed.

(** The loop stays inside the memory exactly on well-formed text. *)
Lemma multicolored_loop_safe : forall mem pending,
  multicolored_loop vec4_of_rgba mem pending <> None <-> colored_text mem.
Proof.
  induction mem as [|ch mem IH IH4] using multicolored_ind; intros pending.
  - split; [intros H; now contradiction H|intros H; inversion H].
  - cbn [multicolored_loop].
    destruct (Ascii.eqb_spec ch NUL) as [->|Hnul].
    { split; [intros _; constructor|discriminate]. }
    destruct (Ascii.eqb_spec ch LF) as [->|Hlf].
    { specialize (IH []).
      destruct (multicolored_loop vec4_of_rgba mem []) as [calls'|]; split; intros H.
      - constructor; [discriminate|discriminate|]. apply IH; discriminate.
      - discriminate.
      - now contradiction H.
      - inversion H as [| ? ? _ _ Hmem |]; subst.
        now apply IH in Hmem. }
    destruct (Ascii.eqb_spec ch ESC) as [->|Hesc].
    { destruct mem as [|r [|g [|b [|a mem'']]]];
        try (split; [intros H; now contradiction H
                    |intros H; inversion H; congruence]).
      specialize (IH4 r g b a mem'' eq_refl []).
      destruct (multicolored_loop vec4_of_rgba mem'' []) as [calls'|]; split; intros H.
      - apply colored_escape. apply IH4; discriminate.
      - discriminate.
      - now contradiction H.
      - inversion H as [| ? ? _ Hne _ |? ? ? ? ? Hmem]; subst;
          [congruence|]. now apply IH4 in Hmem. }
    rewrite IH. split; intros H.
    + now constructor.
    + inversion H; subst; congruence.
Qed.

Lemma imgui_multicolored_text_safe_aux mem (color0 : ImVec4) :
  (exists calls,
     imgui_multicolored_text vec4_of_rgba mem color0 = Some calls) <->
  colored_text mem.
Proof.
  rewrite <- (multicolored_loop_safe mem []).
  unfold imgui_multicolored_text.
  destruct (multicolored_loop vec4_of_rgba mem []) as [calls'|]; split.
  - discriminate.
  - intros _; eexists; reflexivity.
  - intros [calls H]; discriminate.
  - intros H; now contradiction H.
Qed.

(** X21.  [imgui_multicolored_text] reads inside the memory it is given
    exactly when the text is well formed: a NUL to stop at, and four
    bytes after every escape character before it.  On an escape with
    fewer bytes behind it the function reads past the end. *)
Theorem imgui_multicolored_text_safe mem (color0 : ImVec4) :
  (exists calls,
     imgui_multicolored_text vec4_of_rgba mem color0 = Some calls) <->
  colored_text mem.
Proof. apply imgui_multicolored_text_safe_aux. Qed.

(** X22.  [imgui_render_tooltip] draws a tooltip once: after a call that
    returns, the tooltip is empty and a further call makes no ImGui call
    at all.  The calls it makes leave the fonts and the colours as they
    were, small font or not, and draw the visible characters of the
    tooltip, so that of a tooltip set and then added to both parts are
    drawn in that order.  Nothing is drawn for an empty tooltip.  The
    call reads past the end of the tooltip exactly when the tooltip is
    not empty and an escape character in it has fewer than four bytes
    behind it. *)
Theorem imgui_render_tooltip_once fonts (color0 : ImVec4) tip :
  (forall calls tip',
     imgui_render_tooltip vec4_of_rgba fonts color0 tip = Some (calls, tip') ->
     tip' = [] /\
     imgui_render_tooltip vec4_of_rgba fonts color0 tip' = Some ([], []) /\
     (forall depth, style_depth depth calls = Some depth) /\
     (forall depth, font_depth depth calls = Some depth) /\
     concat (drawn_text calls) = visible_text (tip ++ [NUL]) /\
     (tip = [] -> calls = [])) /\
  (forall old a b calls tip',
     tip = imgui_add_tooltip b (imgui_set_tooltip a old) ->
     imgui_render_tooltip vec4_of_rgba fonts color0 tip = Some (calls, tip') ->
     concat (drawn_text calls) = visible_text (a ++ b ++ [NUL])) /\
  (imgui_render_tooltip vec4_of_rgba fonts color0 tip = None <->
   tip <> [] /\ ~ colored_text (tip ++ [NUL])).
Proof.
  assert (Hsome : forall calls tip',
     imgui_render_tooltip vec4_of_rgba fonts color0 tip = Some (calls, tip') ->
     tip' = [] /\
     imgui_render_tooltip vec4_of_rgba fonts color0 tip' = Some ([], []) /\
     (forall depth, style_depth depth calls = Some depth) /\
     (forall depth, font_depth depth calls = Some depth) /\
     concat (drawn_text calls) = visible_text (tip ++ [NUL]) /\
     (tip = [] -> calls = [])).
  { intros calls tip' H. unfold imgui_render_tooltip in H.
    destruct tip as [|x tip0].
    { injection H as <- <-. repeat split; auto. }
    set (tip := x :: tip0) in *.
    destruct (imgui_multicolored_text vec4_of_rgba (tip ++ [NUL]) color0)
      as [inner|] eqn:E; [|discriminate].
    injection H as <- <-.
    split; [reflexivity|split; [reflexivity|]].
    unfold imgui_push_smallfont, imgui_pop_smallfont.
    split; [|split; [|split]].
    - intros depth.
      destruct (multicolored_text_depth _ _ _ depth E) as (Hs & _ & _).
      destruct (fonts >? 1); cbn [fst app style_depth];
        rewrite (style_depth_app _ _ _ _ Hs); reflexivity.
    - intros depth.
      destruct (fonts >? 1); cbn [fst app font_depth].
      + destruct (multicolored_text_depth _ _ _ (S depth) E) as (_ & Hf & _).
        rewrite (font_depth_app _ _ _ _ Hf); reflexivity.
      + destruct (multicolored_text_depth _ _ _ depth E) as (_ & Hf & _).
        rewrite (font_depth_app _ _ _ _ Hf); reflexivity.
    - destruct (multicolored_text_depth _ _ _ O E) as (_ & _ & Ht).
      destruct (fonts >? 1); cbn [fst app drawn_text];
        rewrite drawn_text_app, concat_app, Ht; cbn;
        now rewrite app_nil_r.
    - discriminate. }
  split; [exact Hsome|split].
  - intros old a b calls tip' -> H.
    destruct (Hsome calls tip' H) as (_ & _ & _ & _ & Ht & _).
    rewrite Ht. unfold imgui_add_tooltip, imgui_set_tooltip.
    now rewrite <- app_assoc.
  - unfold imgui_render_tooltip.
    destruct tip as [|x tip0].
    { split; [discriminate|intros [H _]; now contradiction H]. }
    set (tip := x :: tip0) in *.
    rewrite <- (imgui_multicolored_text_safe_aux (tip ++ [NUL]) color0).
    destruct (imgui_multicolored_text vec4_of_rgba (tip ++ [NUL]) color0)
      as [inner|]; split.
    + discriminate.
    + intros [_ H]. exfalso; apply H. eexists; reflexivity.
    + intros _; split; [discriminate|]. intros [calls H]; discriminate.
    + reflexivity.
Qed.

End GuiFacts.

Section GuiWitnesses.

Import Str Gui.

Lemma imgui_multicolored_text_balanced_witness :
  let mem := lit "ab" ++ [ESC; "001"; "000"; "003"; "004"]%char ++
             lit "cd" ++ [NUL] in
  let calls :=
    [PushStyleColor_Text (rgba_bytes "a" "a" "a" "a");
     SameLine; TextUnformatted (lit "ab");
     PopStyleColor 1;
     PushStyleColor_Text (rgba_bytes "001" "000" "003" "004");
     SameLine; TextUnformatted (lit "cd");
     PopStyleColor 1] in
  imgui_multicolored_text rgba_bytes mem (rgba_bytes "a" "a" "a" "a") =
    Some calls /\
  (forall depth, style_depth depth calls = Some depth) /\
  concat (drawn_text calls) = visible_text mem.
Proof.
  intros mem calls.
  assert (H : imgui_multicolored_text rgba_bytes mem
                (rgba_bytes "a" "a" "a" "a") = Some calls) by reflexivity.
  split; [exact H|].
  exact (imgui_multicolored_text_balanced _ rgba_bytes mem _ calls H).
Defined.

Lemma imgui_render_tooltip_once_witness :
  exists calls,
    imgui_render_tooltip rgba_bytes 2 (rgba_bytes "a" "a" "a" "a")
      (imgui_add_tooltip (lit "lo") (imgui_set_tooltip (lit "hel") (lit "x")))
    = Some (calls, []) /\
    concat (drawn_text calls) = visible_text (lit "hel" ++ lit "lo" ++ [NUL]) /\
    (forall depth, font_depth depth calls = Some depth).
Proof.
  eexists; split; [reflexivity|].
  pose proof (imgui_render_tooltip_once _ rgba_bytes 2
                (rgba_bytes "a" "a" "a" "a")
                (imgui_add_tooltip (lit "lo")
                   (imgui_set_tooltip (lit "hel") (lit "x"))))
    as (Hsome & Hadd & _).
  split.
  - apply (Hadd (lit "x") (lit "hel") (lit "lo") _ [] eq_refl eq_refl).
  - apply (Hsome _ [] eq_refl).
Defined.

End GuiWitnesses.

(* ================================================================== *)
(** * More properties of formatting and replacement *)
(* ================================================================== *)

Section FormatFacts.

Import Str.

(** One pass of [string_formatv] is enough for a text shorter than 512
    characters and not for a longer one. *)
Lemma string_formatv_one_pass fmt args :
  string_formatv 1 fmt args =
  if (List.length (vformat fmt args) <? 512)%nat
  then Some (vformat fmt args) else None.
Proof.
  unfold string_formatv. cbn [string_formatv_loop].
  set (full := vformat fmt args).
  destruct (Nat.ltb_spec (List.length full) 512) as [Hshort|Hlong].
  - destruct (vsnprintf_fits (resize [] (Z.to_nat 512)) (Z.to_nat 512)
                fmt args) as [tl ->]; [fold full; lia|].
    fold full.
    replace (Z.of_nat (List.length full) >? -1) with true
      by (symmetry; apply Z.gtb_lt; lia).
    replace (Z.of_nat (List.length full) <? 512) with true
      by (symmetry; apply Z.ltb_lt; lia).
    cbn [andb]. now rewrite Nat2Z.id, resize_prefix.
  - destruct (vsnprintf (resize [] (Z.to_nat 512)) (Z.to_nat 512) fmt args)
      as [str2 n] eqn:E1.
    assert (Hn : n = Z.of_nat (List.length full)).
    { unfold vsnprintf in E1; now inversion E1. }
    subst n.
    replace (Z.of_nat (List.length full) <? 512) with false
      by (symmetry; apply Z.ltb_ge; lia).
    now rewrite andb_false_r.
Qed.

(** X4.  For a format of ordinary characters and plain [%u] conversions,
    each with an unsigned argument: when the text is shorter than 512
    characters [string_formatv], and [string_format] with it, returns in
    the first pass of its loop, and returns exactly the text: the string
    is cut to the length [vsnprintf] reported, without the terminator or
    the rest of the 512-character buffer.  A text of 512 characters or
    more does not fit with its terminator: the first pass does not
    return, and [vsnprintf] is called again. *)
Theorem string_formatv_first_pass fmt args :
  plain_u_format fmt args = true ->
  ((List.length (vformat fmt args) < 512)%nat ->
     forall fuel, (1 <= fuel)%nat ->
       string_formatv fuel fmt args = Some (vformat fmt args) /\
       string_format fuel fmt args = Some (vformat fmt args)) /\
  ((512 <= List.length (vformat fmt args))%nat ->
     string_formatv 1 fmt args = None).
Proof.
  intros _; split.
  - intros H fuel Hfuel. unfold string_format.
    rewrite string_formatv_short by assumption. auto.
  - intros H. rewrite string_formatv_one_pass.
    apply Nat.ltb_ge in H. now rewrite H.
Qed.

Lemma string_formatv_first_pass_witness :
  plain_u_format (lit "comp_%u.%u.%u") [1; 20; 300] = true /\
  (List.length (vformat (lit "comp_%u.%u.%u") [1; 20; 300]%Z) < 512)%nat /\
  (1 <= 1)%nat /\
  string_formatv 1 (lit "comp_%u.%u.%u") [1; 20; 300] =
  Some (lit "comp_1.20.300").
Proof.
  assert (Hfmt : plain_u_format (lit "comp_%u.%u.%u") [1; 20; 300] = true)
    by reflexivity.
  assert (H : (List.length (vformat (lit "comp_%u.%u.%u") [1; 20; 300]%Z)
               < 512)%nat) by (cbn; lia).
  split; [exact Hfmt|split; [exact H|split; [lia|]]].
  apply (proj1 (string_formatv_first_pass (lit "comp_%u.%u.%u")
                  [1; 20; 300] Hfmt) H 1%nat).
  lia.
Defined.

(** X7.  An empty search string in an object other than the subject.
    With a replacement in an object of its own [string_replace_str] never
    returns, whatever the subject and the replacement: the empty string
    is found at every position, and the loop goes on from behind what it
    inserted.  With the replacement bound to the subject itself, a
    non-empty subject is doubled twice and the third [find] starts
    behind its end: the call returns the subject four times over; an
    empty subject stays empty and the call never returns. *)
Theorem string_replace_str_empty_search (s : std_string) :
  (forall replace fuel,
     string_replace_str fuel s (Own []) (Own replace) = None) /\
  (s <> [] -> forall fuel, (3 <= fuel)%nat ->
     string_replace_str fuel s (Own []) Subject = Some (s ++ s ++ s ++ s)) /\
  (s = [] -> forall fuel,
     string_replace_str fuel s (Own []) Subject = None).
Proof.
  split; [|split].
  - intros replace fuel. unfold string_replace_str.
    apply string_replace_str_loop_empty_search. lia.
  - intros Hne fuel Hfuel.
    assert (Hlen : (0 < List.length s)%nat)
      by (destruct s; [contradiction|cbn; lia]).
    destruct fuel as [|[|[|fuel]]]; try lia.
    unfold string_replace_str.
    rewrite string_replace_str_loop_self_insert by lia.
    rewrite string_insert_front; cbn [Nat.add].
    rewrite string_replace_str_loop_self_insert by lia.
    rewrite string_insert_back.
    cbn [string_replace_str_loop deref].
    rewrite string_find_from_past by (rewrite !length_app in *; lia).
    now rewrite <- !app_assoc.
  - intros -> fuel. apply string_replace_str_loop_all_empty.
Qed.

Lemma string_replace_str_empty_search_witness :
  lit "x" <> [] /\ (3 <= 3)%nat /\
  string_replace_str 3 (lit "x") (Own []) Subject = Some (lit "xxxx").
Proof.
  assert (Hne : lit "x" <> []) by discriminate.
  split; [exact Hne|split; [lia|]].
  apply (proj1 (proj2 (string_replace_str_empty_search (lit "x"))) Hne 3%nat).
  lia.
Defined.

(** X8.  With a non-empty search string in an object other than the
    subject, [string_replace_str] leaves a subject alone in which the
    search string does not occur, wherever the replacement is held; and
    it gives the subject back when the replacement, in an object other
    than the subject too, holds the search string. *)
Theorem string_replace_str_identity (s search : std_string) :
  search <> [] ->
  (forall (replace : str_ref) fuel,
     first_occurrence search s = None -> (0 < fuel)%nat ->
     string_replace_str fuel s (Own search) replace = Some s) /\
  (forall fuel, (List.length s < fuel)%nat ->
     string_replace_str fuel s (Own search) (Own search) = Some s).
Proof.
  intros Hne; split.
  - intros replace fuel Hnone Hfuel.
    destruct fuel as [|fuel]; [lia|].
    unfold string_replace_str; cbn [string_replace_str_loop deref].
    pose proof (string_find_at [] s search) as Hat.
    cbn [app List.length] in Hat. now rewrite Hat, Hnone.
  - intros fuel Hfuel.
    destruct (string_replace_str_loop_pieces search search Hne
                (List.length s) s eq_refl) as (us & Hs & _ & Hrun).
    unfold string_replace_str.
    pose proof (Hrun [] fuel Hfuel) as Hres.
    cbn [app List.length] in Hres. now rewrite Hres, <- Hs.
Qed.

Lemma string_replace_str_identity_witness :
  lit "ab" <> [] /\
  (first_occurrence (lit "ab") (lit "a.b") = None /\ (0 < 1)%nat /\
   string_replace_str 1 (lit "a.b") (Own (lit "ab")) Subject =
   Some (lit "a.b")) /\
  ((List.length (lit "abab") < 5)%nat /\
   string_replace_str 5 (lit "abab") (Own (lit "ab")) (Own (lit "ab")) =
   Some (lit "abab")).
Proof.
  assert (Hne : lit "ab" <> []) by discriminate.
  destruct (string_replace_str_identity (lit "a.b") (lit "ab") Hne)
    as [Habsent _].
  destruct (string_replace_str_identity (lit "abab") (lit "ab") Hne)
    as [_ Hsame].
  split; [exact Hne|split].
  - split; [reflexivity|split; [lia|]].
    apply (Habsent Subject 1%nat); [reflexivity|lia].
  - split; [cbn; lia|]. apply (Hsame 5%nat). cbn; lia.
Defined.

(** X23.  Calls that bind an argument to the subject itself.  With the
    search string bound to the subject, the whole subject is erased and
    the search string is empty from then on: a non-empty replacement in
    an object of its own is inserted once and becomes the result; with an
    empty replacement, or with the replacement bound to the subject as
    well, the call never returns.  With only the replacement bound to the
    subject and a non-empty search string, the first occurrence alone is
    replaced, by the subject without that occurrence, and the next [find]
    starts at or behind the end. *)
Theorem string_replace_str_aliased (s : std_string) :
  (forall replace fuel, replace <> [] -> (2 <= fuel)%nat ->
     string_replace_str fuel s Subject (Own replace) = Some replace) /\
  (forall fuel, string_replace_str fuel s Subject (Own []) = None) /\
  (forall fuel, string_replace_str fuel s Subject Subject = None) /\
  (forall search u t fuel,
     search <> [] -> s = u ++ search ++ t ->
     first_occurrence search s = Some (List.length u) -> (2 <= fuel)%nat ->
     string_replace_str fuel s (Own search) Subject =
     Some (u ++ (u ++ t) ++ t)).
Proof.
  split; [|split; [|split]].
  - intros replace fuel Hne Hfuel.
    destruct fuel as [|[|fuel]]; try lia.
    rewrite string_replace_str_search_subject.
    cbn [string_replace_str_loop deref].
    now rewrite string_find_from_end by (assumption || lia).
  - intros [|fuel]; [reflexivity|].
    rewrite string_replace_str_search_subject.
    now apply string_replace_str_loop_emptied.
  - intros [|fuel]; [reflexivity|].
    rewrite string_replace_str_search_subject.
    now apply string_replace_str_loop_emptied.
  - intros search u t fuel Hne Hs Hfind Hfuel.
    destruct fuel as [|[|fuel]]; try lia.
    unfold string_replace_str; cbn [string_replace_str_loop deref].
    pose proof (string_find_at [] s search) as Hat.
    cbn [app List.length] in Hat. rewrite Hat, Hfind; cbn [option_map Nat.add].
    rewrite Hs, string_erase_at, string_insert_at.
    rewrite string_find_from_end by (assumption || lia).
    reflexivity.
Qed.

Lemma string_replace_str_aliased_witness :
  (lit "x" <> [] /\ (2 <= 2)%nat /\
   string_replace_str 2 (lit "") Subject (Own (lit "x")) = Some (lit "x")) /\
  (lit "a" <> [] /\ lit "ab" = [] ++ lit "a" ++ lit "b" /\
   first_occurrence (lit "a") (lit "ab") = Some O /\ (2 <= 2)%nat /\
   string_replace_str 2 (lit "ab") (Own (lit "a")) Subject =
   Some (lit "bb")).
Proof.
  assert (Hx : lit "x" <> []) by discriminate.
  assert (Ha : lit "a" <> []) by discriminate.
  split.
  - split; [exact Hx|split; [lia|]].
    apply (proj1 (string_replace_str_aliased (lit "")) (lit "x") 2%nat Hx).
    lia.
  - split; [exact Ha|split; [reflexivity|split; [reflexivity|split; [lia|]]]].
    apply (proj2 (proj2 (proj2 (string_replace_str_aliased (lit "ab"))))
             (lit "a") [] (lit "b") 2%nat Ha eq_refl eq_refl).
    lia.
Defined.

End FormatFacts.

(* ================================================================== *)
(** * More properties of the log buffer *)
(* ================================================================== *)

Section LogMoreFacts.

Import Log Threads LogCalls.
Local Open Scope string_scope.
Local Open Scope list_scope.

(** X3.  Appends and drains neither lose nor duplicate an entry: after any
    sequence of them the two buffers together hold what they held before
    and the entry of every append whose formatting succeeded, each
    once. *)
Theorem run_conserves_entries cs : forall s,
  Permutation (g_log (run cs s) ++ g_thread_log (run cs s))
              (g_log s ++ g_thread_log s ++ appended cs).
Proof.
  induction cs as [|c cs IH]; intros s.
  - cbn. now rewrite !app_nil_r.
  - rewrite run_cons. rewrite IH. unfold appended; cbn [flat_map].
    fold (appended cs).
    destruct c as [tid [e|]|]; cbn [exec].
    + destruct (Z.eq_dec tid (g_main_tid s)) as [Hm|Hm].
      * destruct (logf_main_fields tid e s Hm) as (_ & -> & ->).
        rewrite <- !app_assoc. apply Permutation_app_head.
        cbn [app]. apply Permutation_middle.
      * destruct (logf_other_fields tid e s Hm) as (_ & -> & ->).
        now rewrite <- !app_assoc.
    + reflexivity.
    + destruct (logf_update_fields s) as (_ & -> & ->).
      cbn [app]. now rewrite <- !app_assoc.
Qed.

(** X2.  In every state the threads can reach from [logf_init], statement
    by statement, at most one thread is between its [SDL_LockMutex] and
    its [SDL_UnlockMutex]: not two of the other threads, and not one of
    them together with a [logf_update] of the main thread. *)
Theorem reachable_mutual_exclusion main cs t :
  steps (t_init main) cs t ->
  (forall w,
     (exists buf, t_worker t w = WLocked buf) \/ t_worker t w = WPushed ->
     (t_main t = MIdle \/ t_main t = MChecked) /\
     forall w',
       (exists buf, t_worker t w' = WLocked buf) \/ t_worker t w' = WPushed ->
       w' = w).
Proof.
  intros Hsteps.
  destruct (steps_settle _ _ _ Hsteps (logf_init main initial_state)
              (consistent_init main) eq_refl eq_refl) as [C _].
  intros w Hw; split; [now apply (mutual_exclusion t w C)|].
  intros w' Hw'.
  assert (Hown : forall x,
    (exists buf, t_worker t x = WLocked buf) \/ t_worker t x = WPushed ->
    t_owner t = Some x).
  { intros x [[buf Hx]|Hx];
      [apply (locked_worker_owns t C x buf Hx)
      |apply (pushed_worker_owns t C x Hx)]. }
  pose proof (Hown w Hw) as H1. pose proof (Hown w' Hw') as H2.
  congruence.
Qed.

(** One silent statement of an execution. *)
Ltac silent_step rule :=
  eapply steps_silent; [rule|];
  cbn [t_main_tid t_log t_thread_log t_owner t_main t_worker t_init app].

Lemma reachable_mutual_exclusion_witness :
  exists t,
    steps (t_init 1) [] t /\
    t_worker t 2 = WLocked "B1" /\
    (t_main t = MIdle \/ t_main t = MChecked).
Proof.
  assert (Hsteps : steps (t_init 1) []
    (mkT 1 [] [] (Some 2) MIdle
       (set_worker (set_worker (fun _ => WIdle) 2 (WFormatted "B1"))
          2 (WLocked "B1")))).
  { silent_step ltac:(apply (worker_logf_formatted _ 2 "B1");
                      [cbn; lia|reflexivity]).
    silent_step ltac:(apply (worker_lock _ 2 "B1"); reflexivity).
    apply steps_refl. }
  eexists; split; [exact Hsteps|split; [reflexivity|]].
  apply (reachable_mutual_exclusion 1 [] _ Hsteps 2).
  left; exists "B1"; reflexivity.
Defined.

Lemma interleaved_statements_linearize_witness :
  exists t,
    steps (t_init 1)
      [Append 2 (Some "B1"); Append 1 (Some "A1"); Append 3 (Some "B2");
       Drain] t /\
    t_main t = MIdle /\
    t_log t =
      logf_get (run [Append 2 (Some "B1"); Append 1 (Some "A1");
                     Append 3 (Some "B2"); Drain]
                    (logf_init 1 initial_state)).
Proof.
  destruct interleaved_execution as (t & Hsteps & Hidle & _).
  exists t; split; [exact Hsteps|split; [exact Hidle|]].
  apply (interleaved_statements_linearize 1 _ t Hsteps Hidle).
Defined.

End LogMoreFacts.
